(** * jaxon-strategy-feed: the feed generator and the Drive sync agent

    A shallow embedding of [generate-feed.py] and [sync-audio-to-drive.py].
    Python values are modelled as follows: [str] as [string] (compared byte
    by byte, as Python compares code points), [int] as [Z], a [dict] with
    string keys as a [gmap string _], a [list] as a [list].  An exception is
    a value of [exn]; code that can raise returns a [result]. *)

From Stdlib Require Import ZArith List Ascii String Bool Lia.
From Stdlib Require Import Sorting.Sorted Sorting.Permutation.
From Stdlib Require Import DecimalString DecimalZ DecimalPos DecimalFacts.
From stdpp Require Import base option gmap strings sorting.

Import ListNotations.
Local Open Scope string_scope.
Local Open Scope Z_scope.

(** ** Python built-ins used by the two scripts *)

Module Py.

(** [sub in s] on strings. *)
Fixpoint str_contains (sub s : string) : bool :=
  String.prefix sub s ||
  match s with
  | EmptyString => false
  | String _ s' => str_contains sub s'
  end.

(** [s.endswith(suffix)]. *)
Fixpoint endswith (s suffix : string) : bool :=
  String.eqb s suffix ||
  match s with
  | EmptyString => false
  | String _ s' => endswith s' suffix
  end.

(** [str(n)] and [f"{n:d}"] for an [int]. *)
Definition str_int (n : Z) : string :=
  NilZero.string_of_int (Z.to_int n).

(** [s.rjust(width, '0')] *)
Definition zfill_digits (width : nat) (s : string) : string :=
  String.concat "" (repeat "0" (width - String.length s)) ++ s.

(** [f"{n:02d}"]: the sign, then the digits padded with zeros so that the
    whole field is at least two characters wide; never truncated. *)
Definition format_02d (n : Z) : string :=
  if n <? 0 then "-" ++ zfill_digits 1 (str_int (- n))
  else zfill_digits 2 (str_int n).

(** [int(s)] restricted to what [format_02d] prints: an optional sign
    followed by decimal digits. *)
Definition int_of_str (s : string) : option Z :=
  match NilZero.int_of_string s with
  | Some d => Some (Z.of_int d)
  | None => None
  end.

(** A stable ascending sort, the contract of [sorted] and [list.sort]. *)
Section Sort.
Context {A : Type} (le : A -> A -> bool).

(** [x] goes after the elements strictly below it and before the first
    element it is less than or equal to. *)
Fixpoint insert (x : A) (l : list A) : list A :=
  match l with
  | [] => [x]
  | y :: l' => if le x y then x :: l else y :: insert x l'
  end.

(** Elements are inserted from the right, so an element ends up before
    the equal elements that followed it in the input. *)
Definition sorted (l : list A) : list A := fold_right insert [] l.

(** [l.sort(reverse=True)]: CPython reverses the list, sorts it with the
    same stable ascending sort, and reverses the result. *)
Definition sort_reverse (l : list A) : list A :=
  rev (sorted (rev l)).
End Sort.

(** Comparison of elements through a string key, [key=lambda e: ...], and
  the test that an element has a given key. *)
Section Keys.
Context {A : Type} (key : A -> string).

Definition key_le (a b : A) : bool := String.leb (key a) (key b).
Definition key_is (k : string) (a : A) : bool := String.eqb (key a) k.
End Keys.

(** *** Naive [datetime] values and [strftime] *)

Record datetime := mkDatetime {
  year : Z; month : Z; day : Z;
  hour : Z; minute : Z; second : Z;
  weekday : Z (* Monday = 0, as [datetime.weekday()] *)
}.

(** Proleptic Gregorian date of a day number counted from 1970-01-01. *)
Definition civil_from_days (days : Z) : Z * Z * Z :=
  let z := days + 719468 in
  let era := z / 146097 in
  let doe := z mod 146097 in
  let yoe := (doe - doe / 1460 + doe / 36524 - doe / 146096) / 365 in
  let doy := doe - (365 * yoe + yoe / 4 - yoe / 100) in
  let mp := (5 * doy + 2) / 153 in
  let d := doy - (153 * mp + 2) / 5 + 1 in
  let m := if mp <? 10 then mp + 3 else mp - 9 in
  let y := yoe + era * 400 + (if m <=? 2 then 1 else 0) in
  (y, m, d).

(** The wall-clock reading of the instant [t] (seconds since the epoch) on a
    clock that is [offset] seconds ahead of UTC. *)
Definition wall_clock (offset t : Z) : datetime :=
  let local := t + offset in
  let days := local / 86400 in
  let secs := local mod 86400 in
  let '(y, m, d) := civil_from_days days in
  {| year := y; month := m; day := d;
     hour := secs / 3600; minute := (secs mod 3600) / 60; second := secs mod 60;
     weekday := (days + 3) mod 7 |}.

(** [datetime.fromtimestamp(t)] without a [tz] argument: the naive local
    time of the machine, whose zone is [utcoffset] seconds east of UTC at
    the instant [t].  The timestamp is taken in whole seconds; the format
    used by the feed prints no fraction. *)
Definition fromtimestamp (utcoffset : Z -> Z) (t : Z) : datetime :=
  wall_clock (utcoffset t) t.

Definition day_abbr (wd : Z) : string :=
  nth (Z.to_nat wd) ["Mon"; "Tue"; "Wed"; "Thu"; "Fri"; "Sat"; "Sun"] "".

Definition month_abbr (m : Z) : string :=
  nth (Z.to_nat (m - 1))
    ["Jan"; "Feb"; "Mar"; "Apr"; "May"; "Jun";
     "Jul"; "Aug"; "Sep"; "Oct"; "Nov"; "Dec"] "".

(** [dt.strftime('%a, %d %b %Y %H:%M:%S %z')] in the C locale.  For a naive
    [datetime], [%z] expands to the empty string. *)
Definition strftime_rfc822 (dt : datetime) : string :=
  day_abbr (weekday dt) ++ ", " ++ format_02d (day dt) ++ " " ++
  month_abbr (month dt) ++ " " ++ zfill_digits 4 (str_int (year dt)) ++ " " ++
  format_02d (hour dt) ++ ":" ++ format_02d (minute dt) ++ ":" ++
  format_02d (second dt) ++ " " ++ "".

(** [name.rfind('.')] *)
Fixpoint rfind_dot (s : string) : option nat :=
  match s with
  | EmptyString => None
  | String c s' =>
      match rfind_dot s' with
      | Some i => Some (S i)
      | None => if Ascii.eqb c "." then Some O else None
      end
  end.

(** [PurePath.stem]: the final component without its last suffix; a leading
    or a trailing dot starts no suffix. *)
Definition stem (name : string) : string :=
  match rfind_dot name with
  | Some i =>
      if Nat.ltb 0 i && Nat.ltb i (String.length name - 1)
      then String.substring 0 i name else name
  | None => name
  end.

(** Exceptions, and the outcome of code that may raise. *)
Inductive exn := Exception (msg : string).

Inductive result (A : Type) :=
| Ok (a : A)
| Raise (e : exn).
Arguments Ok {A} a.
Arguments Raise {A} e.

Definition bind {A B} (r : result A) (k : A -> result B) : result B :=
  match r with
  | Ok a => k a
  | Raise e => Raise e
  end.

(** [xml.etree.ElementTree.Element]: tag, attributes in insertion order,
    text and children. *)
#[warnings="-register-all"]
Inductive Element :=
| mkElement (tag : string) (attrib : list (string * string))
            (text : option string) (children : list Element).

Definition tag (e : Element) : string := let 'mkElement t _ _ _ := e in t.
Definition attrib (e : Element) := let 'mkElement _ a _ _ := e in a.
Definition text (e : Element) : option string := let 'mkElement _ _ x _ := e in x.
Definition children (e : Element) : list Element := let 'mkElement _ _ _ c := e in c.

(** [e.findall(t)]: the direct children with tag [t], in document order. *)
Definition findall (t : string) (e : Element) : list Element :=
  List.filter (fun c => String.eqb (tag c) t) (children e).

End Py.


(** ** generate-feed.py *)

Module GenerateFeed.
Import Py.

Definition GITHUB_BASE_URL : string :=
  "https://jaxondigital.github.io/jaxon-strategy-feed/audio".

Definition ITUNES : string := "{http://www.itunes.com/dtds/podcast-1.0.dtd}".

(** What [ffprobe -print_format json -show_format] gives for a file.  A
    numeric field holds what its conversion ([int(float(v))] for the
    duration, [int(v)] for the size) evaluates to, or that it raises. *)
Inductive Conv :=
| ConvRaises (e : exn)
| ConvValue (z : Z).

Record FormatInfo := mkFormatInfo {
  fmt_tags : option (gmap string string);
  fmt_duration : option Conv;
  fmt_size : option Conv
}.

Inductive Ffprobe :=
| RunFails (e : exn)       (* [subprocess.run(..., check=True)] raises *)
| LoadsFails (e : exn)     (* [json.loads(result.stdout)] raises, or the
                              document has not the shape the code reads *)
| Stdout (format : option FormatInfo).

(** The machine the script runs on. *)
Record Env := mkEnv {
  audio_dir : list (string * Z);  (* entries of AUDIO_DIR: name, [st_mtime] *)
  drive_urls_file : option (gmap string string);
  ffprobe : string -> Ffprobe;
  utcoffset : Z -> Z              (* local zone, seconds east of UTC *)
}.

Record Metadata := mkMetadata {
  md_title : string; md_artist : string; md_album : string;
  md_comment : string; md_duration : Z; md_size : Z
}.

Definition conv (c : Conv) : result Z :=
  match c with
  | ConvRaises e => Raise e
  | ConvValue z => Ok z
  end.

(** The body of the [try] block of [get_mp3_metadata]. *)
Definition read_metadata (env : Env) (mp3_name : string) : result Metadata :=
  match ffprobe env mp3_name with
  | RunFails e => Raise e
  | LoadsFails e => Raise e
  | Stdout format =>
      let format_info := default (mkFormatInfo None None None) format in
      let tags := default (∅ : gmap string string) (fmt_tags format_info) in
      bind (conv (default (ConvValue 0) (fmt_duration format_info))) (fun duration =>
      bind (conv (default (ConvValue 0) (fmt_size format_info))) (fun size =>
      Ok {| md_title := default (stem mp3_name) (tags !! "title");
            md_artist := default "Jaxon Digital" (tags !! "artist");
            md_album := default "Project Pivot Strategy" (tags !! "album");
            md_comment := default "" (tags !! "comment");
            md_duration := duration;
            md_size := size |}))
  end.

(** [except Exception] turns every exception of the body into [None]. *)
Definition get_mp3_metadata (env : Env) (mp3_name : string) : option Metadata :=
  match read_metadata env mp3_name with
  | Ok metadata => Some metadata
  | Raise _ => None
  end.

Definition load_drive_urls (env : Env) : gmap string string :=
  match drive_urls_file env with
  | Some urls => urls
  | None => ∅
  end.

(** [get_audio_url] reads the module constant [GITHUB_BASE_URL]; the
    constant is a parameter here and is instantiated below. *)
Definition get_audio_url_from (base : string) (filename : string)
    (drive_urls : gmap string string) : string :=
  match drive_urls !! filename with
  | Some url => url
  | None => base ++ "/" ++ filename
  end.

Definition get_audio_url := get_audio_url_from GITHUB_BASE_URL.

Record Episode := mkEpisode {
  filename : string; title : string; artist : string; description : string;
  audio_url : string; pub_date : string; duration : Z; size : Z
}.

Definition is_temp_or_chunk (name : string) : bool :=
  str_contains ".temp." name || str_contains ".chunk" name.

Definition pub_date_of (env : Env) (mtime : Z) : string :=
  let pub_date := strftime_rfc822 (fromtimestamp (utcoffset env) mtime) in
  if negb (endswith pub_date " +0000") then pub_date ++ " +0000" else pub_date.

(** [sorted(AUDIO_DIR.glob('*.mp3'))]: paths of one directory compare by
    their final component. *)
Definition mp3_files (env : Env) : list (string * Z) :=
  sorted (key_le fst)
    (List.filter (fun entry => endswith (fst entry) ".mp3") (audio_dir env)).

(** The first loop of [generate_rss]; [episodes] is the list built so far. *)
Fixpoint collect_episodes (env : Env) (drive_urls : gmap string string)
    (files : list (string * Z)) (episodes : list Episode) : list Episode :=
  match files with
  | [] => episodes
  | (name, mtime) :: rest =>
      if is_temp_or_chunk name then collect_episodes env drive_urls rest episodes
      else
        match get_mp3_metadata env name with
        | None => collect_episodes env drive_urls rest episodes
        | Some metadata =>
            let audio_url := get_audio_url name drive_urls in
            let pub_date := pub_date_of env mtime in
            collect_episodes env drive_urls rest
              (episodes ++
               [ {| filename := name;
                    title := md_title metadata;
                    artist := md_artist metadata;
                    description :=
                      if String.eqb (md_comment metadata) ""
                      then "Strategy document - " ++ md_title metadata
                      else md_comment metadata;
                    audio_url := audio_url;
                    pub_date := pub_date;
                    duration := md_duration metadata;
                    size := md_size metadata |} ])%list
        end
  end.

(** [episodes.sort(key=lambda e: e['pub_date'], reverse=True)] *)
Definition sort_episodes (episodes : list Episode) : list Episode :=
  sort_reverse (key_le pub_date) episodes.

Definition duration_str (d : Z) : string :=
  let hours := d / 3600 in
  let minutes := (d mod 3600) / 60 in
  let seconds := d mod 60 in
  format_02d hours ++ ":" ++ format_02d minutes ++ ":" ++ format_02d seconds.

Definition DURATION : string := ITUNES ++ "duration".

Definition leaf (t : string) (x : string) : Element :=
  mkElement t [] (Some x) [].

(** The body of the second loop: the [item] element of one episode. *)
Definition item_of (ep : Episode) : Element :=
  mkElement "item" [] None
    ([ leaf "title" (title ep);
       leaf "description" (description ep);
       leaf "pubDate" (pub_date ep);
       leaf "guid" (audio_url ep);
       mkElement "enclosure"
         [("url", audio_url ep); ("type", "audio/mpeg");
          ("length", str_int (size ep))] None [] ]
     ++ (if 0 <? duration ep
         then [ leaf DURATION (duration_str (duration ep)) ]
         else [])
     ++ [ leaf (ITUNES ++ "author") (artist ep) ])%list.

Definition channel_metadata : list Element :=
  [ leaf "title" "Jaxon Strategy Feed";
    leaf "description"
      ("Strategy documents for Jaxon Digital's transformation from Optimizely "
       ++ "services company to AI Operations Platform SaaS. Includes platform vision, "
       ++ "agent catalog, roadmaps, and partnership materials.");
    leaf "language" "en-us";
    leaf "link" "https://github.com/JaxonDigital/jaxon-strategy-feed";
    leaf (ITUNES ++ "author") "Jaxon Digital";
    mkElement (ITUNES ++ "category") [("text", "Business")] None [];
    leaf (ITUNES ++ "explicit") "no";
    mkElement "{http://www.w3.org/2005/Atom}link"
      [("href", "https://jaxondigital.github.io/jaxon-strategy-feed/feed.rss");
       ("rel", "self"); ("type", "application/rss+xml")] None [] ].

(** The episodes of a run, in the order in which their items are added. *)
Definition episodes_of (env : Env) : list Episode :=
  sort_episodes (collect_episodes env (load_drive_urls env) (mp3_files env) []).

(** [generate_rss] up to the [rss] element tree that is then serialised. *)
Definition generate_rss (env : Env) : Element :=
  let channel :=
    mkElement "channel" [] None
      (channel_metadata ++ map item_of (episodes_of env))%list in
  mkElement "rss"
    [("version", "2.0");
     ("xmlns:itunes", "http://www.itunes.com/dtds/podcast-1.0.dtd");
     ("xmlns:atom", "http://www.w3.org/2005/Atom")] None [channel].

(** The [item] elements of a generated feed, in document order. *)
Definition feed_items (rss : Element) : list Element :=
  flat_map (findall "item") (findall "channel" rss).

End GenerateFeed.

(** ** What a directory entry gives to the feed, stated apart from the loop *)

Module FeedSpec.
Import Py GenerateFeed.

(** A file is selected when its name passes the filter and the tool gives
    metadata for it. *)
Definition selected (env : Env) (name : string) : bool :=
  negb (is_temp_or_chunk name)
  && match get_mp3_metadata env name with
     | Some _ => true
     | None => false
     end.

(** The episode of a selected file. *)
Definition episode_of (env : Env) (drive_urls : gmap string string)
    (name : string) (mtime : Z) (metadata : Metadata) : Episode :=
  {| filename := name;
     title := md_title metadata;
     artist := md_artist metadata;
     description :=
       if String.eqb (md_comment metadata) ""
       then "Strategy document - " ++ md_title metadata
       else md_comment metadata;
     audio_url := get_audio_url name drive_urls;
     pub_date := pub_date_of env mtime;
     duration := md_duration metadata;
     size := md_size metadata |}.

(** The episodes one directory entry contributes: none or one. *)
Definition episodes_of_entry (env : Env) (drive_urls : gmap string string)
    (entry : string * Z) : list Episode :=
  if is_temp_or_chunk (fst entry) then []
  else match get_mp3_metadata env (fst entry) with
       | None => []
       | Some metadata =>
           [episode_of env drive_urls (fst entry) (snd entry) metadata]
       end.

(** The [guid] and the enclosure of an item carry the URL [url]. *)
Definition item_points_to (url : string) (item : Element) : Prop :=
  findall "guid" item = [mkElement "guid" [] (Some url) []]
  /\ exists len,
       findall "enclosure" item
       = [mkElement "enclosure"
            [("url", url); ("type", "audio/mpeg"); ("length", len)] None []].

End FeedSpec.

(** ** sync-audio-to-drive.py *)

Module SyncAudioToDrive.
Import Py.

Definition MP3_FOLDER_ID : string := "1lYbPNf6nJIvJCCCbD2weO_VEuLj5Hb1i".

(** A file of the remote store, with the fields the script's requests read
    or write. *)
Record DriveFile := mkDriveFile {
  file_id : string;
  file_name : string;
  file_parents : list string;
  file_mimeType : string;
  file_trashed : bool;
  file_anyone_reader : bool   (* a permission type=anyone, role=reader *)
}.

(** The fate of a request: the call raises (the file to send cannot be
    read, the network is down, the remote side refuses), or it is answered;
    the string of an answer is the id given to a created file or the new
    access token of a refresh. *)
Inductive Reply :=
| Fails (e : exn)
| Done (s : string).

Record Token := mkToken {
  access_token : option string;
  refresh_token : option string
}.

(** The lines the script prints. *)
Inductive Line :=
| Header
| FoundOnDrive (n : nat)
| FoundLocal (n : nat)
| AlreadyOnDrive (filename : string)
| AlreadyMapped (filename : string)
| Uploading (filename : string)
| Uploaded (download_link : string)
| Error (e : exn)
| Summary (uploaded_count : nat) (total_mapped : nat).

Record World := mkWorld {
  token_file : option Token;                      (* TOKEN_PATH *)
  creds_expired : bool;                           (* [creds.expired] *)
  audio_dir : list string;                        (* names in AUDIO_DIR *)
  drive_urls_file : option (gmap string string);  (* DRIVE_URLS_FILE *)
  drive : list DriveFile;
  page_size : nat;                                (* files per listing page, less one *)
  server : nat -> Reply;                          (* fate of the n-th request *)
  requests : nat;                                 (* requests made so far *)
  stdout : list Line
}.

Definition set_token_file (t : option Token) (w : World) : World :=
  mkWorld t (creds_expired w) (audio_dir w) (drive_urls_file w) (drive w)
          (page_size w) (server w) (requests w) (stdout w).
Definition set_drive_urls_file (m : option (gmap string string)) (w : World) : World :=
  mkWorld (token_file w) (creds_expired w) (audio_dir w) m (drive w)
          (page_size w) (server w) (requests w) (stdout w).
Definition set_drive (d : list DriveFile) (w : World) : World :=
  mkWorld (token_file w) (creds_expired w) (audio_dir w) (drive_urls_file w) d
          (page_size w) (server w) (requests w) (stdout w).
Definition set_requests (n : nat) (w : World) : World :=
  mkWorld (token_file w) (creds_expired w) (audio_dir w) (drive_urls_file w) (drive w)
          (page_size w) (server w) n (stdout w).
Definition set_stdout (out : list Line) (w : World) : World :=
  mkWorld (token_file w) (creds_expired w) (audio_dir w) (drive_urls_file w) (drive w)
          (page_size w) (server w) (requests w) out.

(** Code that reads and writes the world and may raise.  What was done
    before an exception stays done. *)
Definition M (A : Type) : Type := World -> result A * World.

Definition ret {A} (a : A) : M A := fun w => (Ok a, w).
Definition raise {A} (e : exn) : M A := fun w => (Raise e, w).
Definition mbind {A B} (c : M A) (k : A -> M B) : M B :=
  fun w => match c w with
           | (Ok a, w') => k a w'
           | (Raise e, w') => (Raise e, w')
           end.

Local Notation "x <- c1 ;; c2" := (mbind c1 (fun x => c2))
  (at level 100, c1 at next level, right associativity).
Local Notation "c1 ;;; c2" := (mbind c1 (fun _ => c2))
  (at level 100, right associativity).

(** [try: c except Exception as e: h e] *)
Definition try_except {A} (c : M A) (h : exn -> M A) : M A :=
  fun w => match c w with
           | (Ok a, w') => (Ok a, w')
           | (Raise e, w') => h e w'
           end.

Definition get {A} (f : World -> A) : M A := fun w => (Ok (f w), w).
Definition modify (f : World -> World) : M unit := fun w => (Ok tt, f w).
Definition print (l : Line) : M unit :=
  modify (fun w => set_stdout (stdout w ++ [l])%list w).

(** [request.execute()]: one round trip to the remote side. *)
Definition execute : M string :=
  fun w =>
    let w' := set_requests (S (requests w)) w in
    match server w (requests w) with
    | Fails e => (Raise e, w')
    | Done s => (Ok s, w')
    end.

Definition download_link (file_id : string) : string :=
  "https://drive.google.com/uc?export=download&id=" ++ file_id.

(** The truth value of a [str] or [None]. *)
Definition truthy (o : option string) : bool :=
  match o with
  | Some s => negb (String.eqb s "")
  | None => false
  end.

Definition get_drive_service : M unit :=
  token <- get token_file ;;
  match token with
  | None => raise (Exception "Google Drive token not found")
  | Some token_data =>
      expired <- get creds_expired ;;
      if expired && truthy (refresh_token token_data)
      then
        new_token <- execute ;;
        modify (set_token_file
                  (Some (mkToken (Some new_token) (refresh_token token_data))))
      else ret tt
  end.

(** The query of [list_drive_files]:
    ['folder' in parents and trashed=false and mimeType='audio/mpeg']. *)
Definition matches_query (folder_id : string) (f : DriveFile) : bool :=
  existsb (String.eqb folder_id) (file_parents f) && negb (file_trashed f)
  && String.eqb (file_mimeType f) "audio/mpeg".

(** The remote side cuts a result into pages of [S n] files. *)
Fixpoint pages_of {A} (n : nat) (page : list A) (room : nat) (l : list A)
  : list (list A) :=
  match l with
  | [] => [rev page]
  | x :: l' =>
      match room with
      | O => rev page :: pages_of n [x] n l'
      | S room' => pages_of n (x :: page) room' l'
      end
  end.

Definition paginate {A} (n : nat) (l : list A) : list (list A) :=
  pages_of n [] (S n) l.

(** The [for] loop over the files of one response. *)
Definition record_page (page : list DriveFile) (files : gmap string string)
  : gmap string string :=
  fold_left (fun files file =>
               <[file_name file := download_link (file_id file)]> files)
            page files.

(** The [while True] loop: one request per page, until a response carries
    no [nextPageToken]. *)
Fixpoint list_pages (page : list DriveFile) (more : list (list DriveFile))
    (files : gmap string string) : M (gmap string string) :=
  execute ;;;
  let files := record_page page files in
  match more with
  | [] => ret files
  | next :: more' => list_pages next more' files
  end.

Definition list_drive_files (folder_id : string) : M (gmap string string) :=
  remote <- get drive ;;
  n <- get page_size ;;
  match paginate n (List.filter (matches_query folder_id) remote) with
  | [] => list_pages [] [] ∅
  | page :: more => list_pages page more ∅
  end.

(** [mimetypes.guess_type], which [MediaFileUpload] applies to the path. *)
Definition guess_type (name : string) : string :=
  if endswith name ".mp3" then "audio/mpeg" else "application/octet-stream".

Definition grant_anyone_reader (id : string) (f : DriveFile) : DriveFile :=
  if String.eqb (file_id f) id
  then mkDriveFile (file_id f) (file_name f) (file_parents f)
                   (file_mimeType f) (file_trashed f) true
  else f.

(** [service.files().create(...).execute()] *)
Definition files_create (name : string) (parents : list string) : M string :=
  id <- execute ;;
  modify (fun w => set_drive
            (drive w ++ [mkDriveFile id name parents (guess_type name) false false])%list
            w) ;;;
  ret id.

(** [service.permissions().create(fileId=..., body=anyone/reader).execute()] *)
Definition permissions_create (id : string) : M unit :=
  execute ;;;
  modify (fun w => set_drive (map (grant_anyone_reader id) (drive w)) w).

(** Local paths are given by their final component; [AUDIO_DIR] is fixed. *)
Definition upload_file_to_drive (file_name : string) (parent_folder_id : string)
  : M string :=
  file_id <- files_create file_name [parent_folder_id] ;;
  permissions_create file_id ;;;
  ret (download_link file_id).

(** The body of the sync loop, on the local variables [drive_urls] and
    [uploaded_count]. *)
Definition sync_file (existing_files : gmap string string) (filename : string)
    (st : gmap string string * nat) : M (gmap string string * nat) :=
  let '(drive_urls, uploaded_count) := st in
  match existing_files !! filename with
  | Some url =>
      print (AlreadyOnDrive filename) ;;;
      ret (<[filename := url]> drive_urls, uploaded_count)
  | None =>
      match drive_urls !! filename with
      | Some _ =>
          print (AlreadyMapped filename) ;;;
          ret (drive_urls, uploaded_count)
      | None =>
          print (Uploading filename) ;;;
          try_except
            (download_link <- upload_file_to_drive filename MP3_FOLDER_ID ;;
             print (Uploaded download_link) ;;;
             ret (<[filename := download_link]> drive_urls, S uploaded_count))
            (fun e => print (Error e) ;;; ret (drive_urls, uploaded_count))
      end
  end.

Fixpoint sync_files (existing_files : gmap string string)
    (local_mp3s : list string) (st : gmap string string * nat)
  : M (gmap string string * nat) :=
  match local_mp3s with
  | [] => ret st
  | filename :: rest =>
      st' <- sync_file existing_files filename st ;;
      sync_files existing_files rest st'
  end.

(** [AUDIO_DIR.glob('*.mp3')] without the temp and chunk files. *)
Definition local_mp3s (w : World) : list string :=
  List.filter (fun name => negb (str_contains ".temp." name)
                           && negb (str_contains ".chunk" name))
    (List.filter (fun name => endswith name ".mp3") (audio_dir w)).

Definition main : M unit :=
  print Header ;;;
  get_drive_service ;;;
  existing_files <- list_drive_files MP3_FOLDER_ID ;;
  print (FoundOnDrive (size existing_files)) ;;;
  saved <- get drive_urls_file ;;
  let drive_urls := default (∅ : gmap string string) saved in
  local <- get local_mp3s ;;
  print (FoundLocal (length local)) ;;;
  st <- sync_files existing_files local (drive_urls, O) ;;
  let '(drive_urls, uploaded_count) := st in
  modify (set_drive_urls_file (Some drive_urls)) ;;;
  print (Summary uploaded_count (size drive_urls)).

End SyncAudioToDrive.

(** ** What a sync run may do, stated apart from the code *)

Module SyncSpec.
Import Py SyncAudioToDrive.

(** The file an upload of [name] creates when the remote side calls it [id]. *)
Definition new_file (id name : string) : DriveFile :=
  mkDriveFile id name [MP3_FOLDER_ID] (guess_type name) false false.

(** The listing of a folder whose files are [remote]. *)
Definition remote_listing (folder_id : string) (remote : list DriveFile)
  : gmap string string :=
  record_page (List.filter (matches_query folder_id) remote) ∅.

Definition saved_mapping (w : World) : gmap string string :=
  default (∅ : gmap string string) (drive_urls_file w).

(** What no step of the sync loop touches. *)
Definition frame (w w' : World) : Prop :=
  token_file w' = token_file w /\ creds_expired w' = creds_expired w
  /\ audio_dir w' = audio_dir w /\ drive_urls_file w' = drive_urls_file w
  /\ page_size w' = page_size w /\ server w' = server w.

(** The four outcomes of one iteration of the sync loop on [filename]. *)
Inductive sync_step (existing_files : gmap string string) (filename : string)
  : gmap string string * nat -> World -> gmap string string * nat -> World -> Prop :=
| Matched_remote drive_urls n w w' url :
    existing_files !! filename = Some url ->
    frame w w' -> drive w' = drive w -> requests w' = requests w ->
    stdout w' = (stdout w ++ [AlreadyOnDrive filename])%list ->
    sync_step existing_files filename (drive_urls, n) w
              (<[filename := url]> drive_urls, n) w'
| Matched_cache drive_urls n w w' :
    existing_files !! filename = None ->
    is_Some (drive_urls !! filename) ->
    frame w w' -> drive w' = drive w -> requests w' = requests w ->
    stdout w' = (stdout w ++ [AlreadyMapped filename])%list ->
    sync_step existing_files filename (drive_urls, n) w (drive_urls, n) w'
| Upload_done drive_urls n w w' id ok :
    existing_files !! filename = None ->
    drive_urls !! filename = None ->
    server w (requests w) = Done id ->
    server w (S (requests w)) = Done ok ->
    frame w w' ->
    drive w' = map (grant_anyone_reader id)
                   (drive w ++ [new_file id filename])%list ->
    requests w' = S (S (requests w)) ->
    stdout w' = (stdout w ++ [Uploading filename; Uploaded (download_link id)])%list ->
    sync_step existing_files filename (drive_urls, n) w
              (<[filename := download_link id]> drive_urls, S n) w'
| Upload_failed drive_urls n w w' e :
    existing_files !! filename = None ->
    drive_urls !! filename = None ->
    (server w (requests w) = Fails e /\ drive w' = drive w
     \/ exists id, server w (requests w) = Done id
                  /\ server w (S (requests w)) = Fails e
                  /\ drive w' = (drive w ++ [new_file id filename])%list) ->
    frame w w' ->
    stdout w' = (stdout w ++ [Uploading filename; Error e])%list ->
    sync_step existing_files filename (drive_urls, n) w (drive_urls, n) w'.

(** The sync loop over a list of files: one step per file, in order. *)
Inductive sync_steps (existing_files : gmap string string)
  : list string -> gmap string string * nat -> World ->
    gmap string string * nat -> World -> Prop :=
| Steps_nil st w : sync_steps existing_files [] st w st w
| Steps_cons filename rest st w st1 w1 st2 w2 :
    sync_step existing_files filename st w st1 w1 ->
    sync_steps existing_files rest st1 w1 st2 w2 ->
    sync_steps existing_files (filename :: rest) st w st2 w2.

(** The listing the folder would give now, [remote], against the listing
    [existing_files] taken at the start of the run and the mapping built so
    far: names listed at the start are listed as they were, and a name
    listed since is mapped to the URL it is listed with. *)
Definition listing_agrees (existing_files drive_urls : gmap string string)
    (remote : list DriveFile) : Prop :=
  (forall k u, remote_listing MP3_FOLDER_ID remote !! k = Some u ->
               existing_files !! k = Some u \/ drive_urls !! k = Some u)
  /\ (forall k u, existing_files !! k = Some u ->
                  remote_listing MP3_FOLDER_ID remote !! k = Some u).

(** What identifies a remote file and decides whether it is listed. *)
Definition core (f : DriveFile)
  : string * string * list string * string * bool :=
  (file_id f, file_name f, file_parents f, file_mimeType f, file_trashed f).

(** [f'] is the file [f], possibly with public read permission added. *)
Definition kept (f f' : DriveFile) : Prop :=
  core f' = core f
  /\ (file_anyone_reader f = true -> file_anyone_reader f' = true).

(** The remote store [remote'] holds the files of [remote], in place, and
    possibly new files after them. *)
Definition extends (remote remote' : list DriveFile) : Prop :=
  exists olds news, remote' = (olds ++ news)%list /\ Forall2 kept remote olds.

(** The remote side answers every request. *)
Definition always_answers (w : World) : Prop :=
  forall n, exists s, server w n = Done s.

(** A run in which no upload failed prints no [Error] line. *)
Definition no_error (out : list Line) : Prop := forall e, ~ In (Error e) out.

End SyncSpec.

(** ** Concrete machines used by the examples below *)

Module Examples.
Import Py GenerateFeed.

Definition no_tags : string -> Ffprobe := fun _ => Stdout None.

(** Two files; [a.mp3] was modified on Monday 6 January 2025 and [b.mp3]
    on Wednesday 1 January 2025, both at 00:00:00 UTC. *)
Definition env_two_dates : Env :=
  {| audio_dir := [("a.mp3", 1736121600); ("b.mp3", 1735689600)];
     drive_urls_file := None;
     ffprobe := no_tags;
     utcoffset := fun _ => 0 |}.

(** One file modified at the epoch, on a machine five hours west of UTC. *)
Definition env_west : Env :=
  {| audio_dir := [("a.mp3", 0)];
     drive_urls_file := None;
     ffprobe := no_tags;
     utcoffset := fun _ => -18000 |}.

(** [a.mp3] cannot be probed, [b.mp3] can. *)
Definition env_probe_fails : Env :=
  {| audio_dir := [("a.mp3", 0); ("b.mp3", 0)];
     drive_urls_file := None;
     ffprobe := fun name =>
       if String.eqb name "a.mp3" then RunFails (Exception "CalledProcessError")
       else Stdout None;
     utcoffset := fun _ => 0 |}.

(** A machine with a token, a stale mapping entry, one file already on the
    Drive and one still to upload; the remote side answers every request
    and calls the n-th created file [N<n>]. *)
Definition world_sync : SyncAudioToDrive.World :=
  {| SyncAudioToDrive.token_file :=
       Some (SyncAudioToDrive.mkToken (Some "ya29") None);
     SyncAudioToDrive.creds_expired := false;
     SyncAudioToDrive.audio_dir :=
       ["a.mp3"; "b.mp3"; "c.temp.mp3"; "d.chunk1.mp3"; "notes.txt"];
     SyncAudioToDrive.drive_urls_file :=
       Some {[ "old.mp3" := "https://drive.google.com/uc?export=download&id=X0" ]};
     SyncAudioToDrive.drive :=
       [ SyncAudioToDrive.mkDriveFile "X1" "b.mp3"
           [SyncAudioToDrive.MP3_FOLDER_ID] "audio/mpeg" false true ];
     SyncAudioToDrive.page_size := 0%nat;
     SyncAudioToDrive.server :=
       fun n => SyncAudioToDrive.Done ("N" ++ str_int (Z.of_nat n));
     SyncAudioToDrive.requests := 0%nat;
     SyncAudioToDrive.stdout := [] |}.

(** The same machine with nothing on the Drive and nothing saved, while the
    remote side refuses the second request, the creation of the file. *)
Definition world_down : SyncAudioToDrive.World :=
  {| SyncAudioToDrive.token_file :=
       Some (SyncAudioToDrive.mkToken (Some "ya29") None);
     SyncAudioToDrive.creds_expired := false;
     SyncAudioToDrive.audio_dir := ["a.mp3"];
     SyncAudioToDrive.drive_urls_file := None;
     SyncAudioToDrive.drive := [];
     SyncAudioToDrive.page_size := 0%nat;
     SyncAudioToDrive.server :=
       fun n => match n with
                | 1%nat => SyncAudioToDrive.Fails (Exception "HttpError 503")
                | _ => SyncAudioToDrive.Done "N"
                end;
     SyncAudioToDrive.requests := 0%nat;
     SyncAudioToDrive.stdout := [] |}.

(** A tagged file with a saved Drive link beside an untagged one. *)
Definition env_tagged : Env :=
  {| audio_dir := [("vision.mp3", 1735689600); ("roadmap.mp3", 1735689600);
                   ("roadmap.temp.mp3", 1735689600)];
     drive_urls_file :=
       Some {[ "vision.mp3" := "https://drive.google.com/uc?export=download&id=V" ]};
     ffprobe := fun name =>
       if String.eqb name "vision.mp3"
       then Stdout (Some (mkFormatInfo
                            (Some {[ "title" := "Platform Vision";
                                     "comment" := "The platform vision" ]})
                            (Some (ConvValue 3725)) (Some (ConvValue 1000))))
       else Stdout (Some (mkFormatInfo None None None));
     utcoffset := fun _ => 0 |}.

(** The machine of [world_sync] without its token file. *)
Definition world_no_token : SyncAudioToDrive.World :=
  SyncAudioToDrive.set_token_file None world_sync.

(** The machine of [world_sync] with an expired access token and a refresh
    token at hand. *)
Definition world_expired : SyncAudioToDrive.World :=
  SyncAudioToDrive.mkWorld
    (Some (SyncAudioToDrive.mkToken (Some "ya29") (Some "1//refresh")))
    true
    (SyncAudioToDrive.audio_dir world_sync)
    (SyncAudioToDrive.drive_urls_file world_sync)
    (SyncAudioToDrive.drive world_sync)
    1%nat
    (SyncAudioToDrive.server world_sync)
    0%nat [].


(** The feed generator run on the directory of [world_sync], after the
    sync, with the mapping the sync wrote. *)
Definition env_after_sync : Env :=
  {| audio_dir := map (fun name => (name, 1735689600))
                      (SyncAudioToDrive.audio_dir world_sync);
     drive_urls_file :=
       SyncAudioToDrive.drive_urls_file
         (snd (SyncAudioToDrive.main world_sync));
     ffprobe := no_tags;
     utcoffset := fun _ => 0 |}.

End Examples.

(** ** Checks run on finitely many values *)

Module Checks.
Import Py.

(** [format_02d] prints the number [k] in two characters that read back
    as [k]. *)
Definition two_wide (k : nat) : bool :=
  let n := Z.of_nat k in
  Nat.eqb (String.length (format_02d n)) 2
  && match int_of_str (format_02d n) with
     | Some m => m =? n
     | None => false
     end.

End Checks.

(** * Properties *)

(** ** Strings and decimal numerals *)

#[local] Arguments String.append !_ _ / : simpl nomatch.

Section StringFacts.
Import Py Checks.

Lemma append_assoc (a b c : string) : (a ++ b) ++ c = a ++ (b ++ c).
Proof. induction a as [|x a IH]; simpl; [reflexivity | now rewrite IH]. Qed.

Lemma length_append (a b : string) :
  String.length (a ++ b) = (String.length a + String.length b)%nat.
Proof. induction a as [|x a IH]; simpl; [reflexivity | now rewrite IH]. Qed.

Lemma prefix_spec (a s : string) :
  String.prefix a s = true <-> exists post, s = a ++ post.
Proof.
  revert s. induction a as [|x a IH]; intros s.
  - destruct s; simpl; split; eauto.
  - destruct s as [|y s]; simpl.
    + split; [discriminate | intros [post H]; discriminate].
    + destruct (ascii_dec x y) as [->|Hxy].
      * rewrite IH. split; intros [post H]; exists post; congruence.
      * split; [discriminate | intros [post H]; congruence].
Qed.

(** [str_contains] is the substring test of Python's [in]. *)
Lemma str_contains_spec (sub s : string) :
  str_contains sub s = true <-> exists pre post, s = pre ++ sub ++ post.
Proof.
  induction s as [|c s IH]; cbn [str_contains].
  - rewrite orb_false_r, prefix_spec. split.
    + intros [post H]. exists "", post. exact H.
    + intros [pre [post H]]. destruct pre; [|discriminate]. eauto.
  - rewrite orb_true_iff, prefix_spec, IH. split.
    + intros [[post H] | [pre [post H]]].
      * exists "", post. exact H.
      * exists (String c pre), post. simpl. now rewrite H.
    + intros [pre [post H]]. destruct pre as [|x pre]; simpl in H.
      * left. eauto.
      * right. exists pre, post. congruence.
Qed.

Lemma endswith_refl (s : string) : endswith s s = true.
Proof. destruct s; simpl; now rewrite ?Ascii.eqb_refl, ?String.eqb_refl. Qed.

Lemma endswith_append (a suffix : string) : endswith (a ++ suffix) suffix = true.
Proof.
  induction a as [|x a IH]; simpl.
  - apply endswith_refl.
  - rewrite IH. apply orb_true_r.
Qed.

Lemma length_string_of_uint (d : Decimal.uint) :
  String.length (NilEmpty.string_of_uint d) = Decimal.nb_digits d.
Proof. induction d; simpl; congruence. Qed.

(** The decimal numeral of a natural number: its digits, and its value. *)
Lemma str_int_digits (n : Z) :
  0 <= n ->
  exists d, d <> Decimal.Nil /\ str_int n = NilEmpty.string_of_uint d
            /\ Z.of_uint d = n.
Proof.
  intros Hn. destruct n as [|p|p]; [| |lia].
  - exists (Decimal.D0 Decimal.Nil). repeat split. discriminate.
  - exists (Pos.to_uint p). split; [apply Unsigned.to_uint_nonnil|]. split.
    + unfold str_int. simpl. unfold NilZero.string_of_uint.
      pose proof (Unsigned.to_uint_nonnil p). now destruct (Pos.to_uint p).
    + unfold Z.of_uint. now rewrite Unsigned.of_to.
Qed.

Lemma two_digits_below_100 (d : Decimal.uint) :
  (Decimal.nb_digits d <= 2)%nat -> Z.of_uint d < 100.
Proof.
  intros H.
  destruct d as [|d|d|d|d|d|d|d|d|d|d]; [vm_compute; reflexivity|..];
    (destruct d as [|d|d|d|d|d|d|d|d|d|d]; [vm_compute; reflexivity|..];
     (destruct d; [vm_compute; reflexivity|simpl in H; lia..])).
Qed.

Lemma one_digit_below_10 (d : Decimal.uint) :
  (Decimal.nb_digits d <= 1)%nat -> Z.of_uint d < 10.
Proof.
  intros H.
  destruct d as [|d|d|d|d|d|d|d|d|d|d]; [vm_compute; reflexivity|..];
    (destruct d; [vm_compute; reflexivity|simpl in H; lia..]).
Qed.

Lemma length_str_int_ge_2 (n : Z) : 10 <= n -> (2 <= String.length (str_int n))%nat.
Proof.
  intros Hn. destruct (str_int_digits n) as [d [_ [-> Hd]]]; [lia|].
  rewrite length_string_of_uint.
  destruct (Nat.le_gt_cases (Decimal.nb_digits d) 1) as [H|H]; [|lia].
  apply one_digit_below_10 in H. lia.
Qed.

Lemma length_str_int_ge_3 (n : Z) : 100 <= n -> (3 <= String.length (str_int n))%nat.
Proof.
  intros Hn. destruct (str_int_digits n) as [d [_ [-> Hd]]]; [lia|].
  rewrite length_string_of_uint.
  destruct (Nat.le_gt_cases (Decimal.nb_digits d) 2) as [H|H]; [|lia].
  apply two_digits_below_100 in H. lia.
Qed.

Lemma int_of_str_str_int (n : Z) : int_of_str (str_int n) = Some n.
Proof.
  unfold int_of_str, str_int. rewrite NilZero.isi.
  - now rewrite DecimalZ.of_to.
  - destruct n; simpl; try discriminate.
    intros [= H]. now apply Unsigned.to_uint_nonnil in H.
  - destruct n; simpl; try discriminate.
    intros [= H]. now apply Unsigned.to_uint_nonnil in H.
Qed.

Lemma zfill_digits_long (width : nat) (s : string) :
  (width <= String.length s)%nat -> zfill_digits width s = s.
Proof.
  intros H. unfold zfill_digits.
  replace (width - String.length s)%nat with O by lia. reflexivity.
Qed.

(** Below one hundred, [format_02d] is checked value by value. *)
Lemma format_02d_small (n : Z) :
  0 <= n < 100 ->
  String.length (format_02d n) = 2%nat /\ int_of_str (format_02d n) = Some n.
Proof.
  intros Hn.
  assert (Hall : forallb two_wide (seq 0 100) = true) by (vm_compute; reflexivity).
  rewrite forallb_forall in Hall.
  specialize (Hall (Z.to_nat n)).
  unfold two_wide in Hall. rewrite Z2Nat.id in Hall by lia.
  apply andb_true_iff in Hall as [H1 H2].
  - split; [now apply Nat.eqb_eq|].
    destruct (int_of_str (format_02d n)); [|discriminate].
    apply Z.eqb_eq in H2. now subst.
  - apply in_seq. lia.
Qed.

Lemma format_02d_large (n : Z) : 10 <= n -> format_02d n = str_int n.
Proof.
  intros Hn. unfold format_02d.
  destruct (Z.ltb_spec n 0); [lia|].
  apply zfill_digits_long. now apply length_str_int_ge_2.
Qed.

(** [format_02d] loses nothing: the field reads back as the number. *)
Lemma int_of_str_format_02d (n : Z) : 0 <= n -> int_of_str (format_02d n) = Some n.
Proof.
  intros Hn. destruct (Z.lt_ge_cases n 10).
  - apply format_02d_small. lia.
  - rewrite format_02d_large by lia. apply int_of_str_str_int.
Qed.

Lemma length_format_02d_ge_2 (n : Z) : 0 <= n -> (2 <= String.length (format_02d n))%nat.
Proof.
  intros Hn. destruct (Z.lt_ge_cases n 10).
  - destruct (format_02d_small n) as [-> _]; lia.
  - rewrite format_02d_large by lia. now apply length_str_int_ge_2.
Qed.

Lemma length_format_02d_ge_3 (n : Z) : 100 <= n -> (3 <= String.length (format_02d n))%nat.
Proof.
  intros Hn. rewrite format_02d_large by lia. now apply length_str_int_ge_3.
Qed.

End StringFacts.

(** ** The stable sort *)

Section SortFacts.
Import Py.
Context {A : Type} (key : A -> string).

Local Abbreviation key_le := (Py.key_le key).
Local Abbreviation key_is := (Py.key_is key).

Lemma key_le_refl (a b : A) : key a = key b -> key_le a b = true.
Proof.
  unfold Py.key_le. intros ->.
  pose proof (PreOrder_Reflexive (R := String.le) (key b)) as H.
  unfold String.le in H. now apply Is_true_true in H.
Qed.

Lemma key_le_total (a b : A) : key_le a b = false -> key_le b a = true.
Proof.
  unfold Py.key_le. destruct (String.leb_total (key a) (key b)); congruence.
Qed.

Lemma insert_Permutation (x : A) (l : list A) :
  Permutation (insert key_le x l) (x :: l).
Proof.
  induction l as [|y l IH]; simpl; [reflexivity|].
  destruct (key_le x y); [reflexivity|].
  rewrite IH. apply perm_swap.
Qed.

Lemma sorted_Permutation (l : list A) : Permutation (sorted key_le l) l.
Proof.
  induction l as [|x l IH]; simpl; [reflexivity|].
  rewrite insert_Permutation. now constructor.
Qed.

Lemma sort_reverse_Permutation (l : list A) :
  Permutation (sort_reverse key_le l) l.
Proof.
  unfold sort_reverse.
  rewrite <- Permutation_rev, sorted_Permutation, <- Permutation_rev. reflexivity.
Qed.

Lemma HdRel_insert (z x : A) (l : list A) :
  key_le z x = true -> HdRel (fun a b => key_le a b = true) z l ->
  HdRel (fun a b => key_le a b = true) z (insert key_le x l).
Proof.
  intros Hzx Hl. destruct l as [|y l]; simpl; [now constructor|].
  destruct (key_le x y); constructor; [assumption|now inversion Hl].
Qed.

Lemma Sorted_insert (x : A) (l : list A) :
  Sorted (fun a b => key_le a b = true) l ->
  Sorted (fun a b => key_le a b = true) (insert key_le x l).
Proof.
  induction 1 as [|y l Hl IH Hy]; simpl; [repeat constructor|].
  destruct (key_le x y) eqn:Hxy.
  - repeat constructor; assumption.
  - constructor; [exact IH|]. apply HdRel_insert; [|exact Hy].
    now apply key_le_total.
Qed.

Lemma Sorted_sorted (l : list A) :
  Sorted (fun a b => key_le a b = true) (sorted key_le l).
Proof.
  induction l as [|x l IH]; simpl; [constructor|]. now apply Sorted_insert.
Qed.

(** After [l.sort(key=key, reverse=True)] the keys never increase, as
    strings. *)
Lemma Sorted_sort_reverse (l : list A) :
  Sorted (fun a b => key_le b a = true) (sort_reverse key_le l).
Proof.
  unfold sort_reverse. rewrite rev_alt.
  apply (Sorted_reverse (fun a b => key_le a b = true)), Sorted_sorted.
Qed.

Lemma filter_insert (k : string) (x : A) (l : list A) :
  List.filter (key_is k) (insert key_le x l) = List.filter (key_is k) (x :: l).
Proof.
  induction l as [|y l IH]; [reflexivity|].
  cbn [insert]. destruct (key_le x y) eqn:Hxy; [reflexivity|].
  cbn [List.filter] in *. rewrite IH.
  unfold Py.key_is. destruct (String.eqb_spec (key y) k) as [Hy|Hy];
    destruct (String.eqb_spec (key x) k) as [Hx|Hx]; try reflexivity.
  rewrite key_le_refl in Hxy by congruence. discriminate.
Qed.

Lemma filter_sorted (k : string) (l : list A) :
  List.filter (key_is k) (sorted key_le l) = List.filter (key_is k) l.
Proof.
  induction l as [|x l IH]; [reflexivity|].
  cbn [sorted fold_right]. fold (sorted key_le l).
  rewrite filter_insert. cbn [List.filter]. now rewrite IH.
Qed.

(** Stability: the elements of any one key keep their input order. *)
Lemma filter_sort_reverse (k : string) (l : list A) :
  List.filter (key_is k) (sort_reverse key_le l) = List.filter (key_is k) l.
Proof.
  unfold sort_reverse.
  now rewrite filter_rev, filter_sorted, filter_rev, rev_involutive.
Qed.

End SortFacts.

(** ** The feed generator *)

Section FeedFacts.
Import Py GenerateFeed.

Lemma sort_episodes_Permutation (episodes : list Episode) :
  Permutation (sort_episodes episodes) episodes.
Proof. apply (sort_reverse_Permutation pub_date). Qed.

(** What the sort does establish: the items are in non-increasing order of
    the [pubDate] strings, and items of equal [pubDate] keep the order in
    which the files were enumerated. *)
Lemma sort_episodes_by_string (episodes : list Episode) :
  Sorted (fun a b => String.leb (pub_date b) (pub_date a) = true)
         (sort_episodes episodes)
  /\ forall k, List.filter (key_is pub_date k) (sort_episodes episodes)
              = List.filter (key_is pub_date k) episodes.
Proof.
  split.
  - apply (Sorted_sort_reverse pub_date).
  - intros k. apply (filter_sort_reverse pub_date).
Qed.

(** The files are enumerated in the order of their names. *)
Lemma mp3_files_by_name (env : Env) :
  Sorted (fun a b => String.leb (fst a) (fst b) = true) (mp3_files env).
Proof. apply (Sorted_sorted fst). Qed.

Lemma collect_episodes_acc env urls files acc :
  collect_episodes env urls files acc
  = (acc ++ collect_episodes env urls files [])%list.
Proof.
  revert acc. induction files as [|[name mtime] files IH]; intros acc.
  - simpl. now rewrite app_nil_r.
  - cbn [collect_episodes].
    destruct (is_temp_or_chunk name); [apply IH|].
    destruct (get_mp3_metadata env name); [|apply IH].
    rewrite IH. rewrite (IH ([] ++ _)%list). now rewrite app_assoc.
Qed.

Lemma collect_episodes_app env urls l1 l2 acc :
  collect_episodes env urls (l1 ++ l2) acc
  = collect_episodes env urls l2 (collect_episodes env urls l1 acc).
Proof.
  revert acc. induction l1 as [|[name mtime] l1 IH]; intros acc; [reflexivity|].
  cbn [collect_episodes app].
  destruct (is_temp_or_chunk name); [apply IH|].
  destruct (get_mp3_metadata env name); apply IH.
Qed.

(** Every collected episode comes from a file that passed the name filter
    and had metadata. *)
Lemma collect_episodes_In env urls files acc ep :
  In ep (collect_episodes env urls files acc) ->
  In ep acc \/
  (exists mtime, In (filename ep, mtime) files)
  /\ is_temp_or_chunk (filename ep) = false
  /\ get_mp3_metadata env (filename ep) <> None.
Proof.
  revert acc. induction files as [|[name mtime] files IH]; intros acc H.
  - now left.
  - cbn [collect_episodes] in H.
    destruct (is_temp_or_chunk name) eqn:Htemp.
    { apply IH in H as [H|[[t H] H']]; [now left|right].
      split; [exists t; now right|exact H']. }
    destruct (get_mp3_metadata env name) eqn:Hmeta.
    2:{ apply IH in H as [H|[[t H] H']]; [now left|right].
        split; [exists t; now right|exact H']. }
    apply IH in H as [H|[[t H] H']].
    + apply in_app_or in H as [H|[<-|[]]]; [now left|right]. cbn [filename].
      split; [exists mtime; now left|]. split; [exact Htemp|congruence].
    + right. split; [exists t; now right|exact H'].
Qed.

Lemma feed_items_generate_rss env :
  feed_items (generate_rss env) = map item_of (episodes_of env).
Proof.
  unfold feed_items, generate_rss, findall. cbn.
  rewrite app_nil_r.
  induction (episodes_of env) as [|ep l IH]; [reflexivity|].
  cbn. now rewrite IH.
Qed.

End FeedFacts.

Section FeedClaims.
Import Py GenerateFeed Examples.

(** C3: for every filename and mapping, [get_audio_url] returns the mapped
    value when the filename is a key, whatever the fallback base path is,
    and otherwise the base path, a slash and the filename, once. *)
Theorem get_audio_url_resolves (filename : string) (drive_urls : gmap string string) :
  (forall base url,
      drive_urls !! filename = Some url ->
      get_audio_url_from base filename drive_urls = url
      /\ get_audio_url filename drive_urls = url)
  /\ (drive_urls !! filename = None ->
      get_audio_url filename drive_urls = GITHUB_BASE_URL ++ "/" ++ filename
      /\ String.length (get_audio_url filename drive_urls)
         = (String.length GITHUB_BASE_URL + 1 + String.length filename)%nat).
Proof.
  unfold get_audio_url, get_audio_url_from. split.
  - intros base url ->. split; reflexivity.
  - intros ->. split; [reflexivity|].
    rewrite !length_append. cbn [String.length]. lia.
Qed.

Lemma get_audio_url_resolves_witness :
  get_audio_url "a.mp3" {["a.mp3" := "https://drive.google.com/uc?export=download&id=1"]}
  = "https://drive.google.com/uc?export=download&id=1"
  /\ get_audio_url "b.mp3" {["a.mp3" := "https://drive.google.com/uc?export=download&id=1"]}
     = "https://jaxondigital.github.io/jaxon-strategy-feed/audio/b.mp3".
Proof.
  split.
  - apply (get_audio_url_resolves "a.mp3" _). exact "". vm_compute. reflexivity.
  - apply (get_audio_url_resolves "b.mp3" _). vm_compute. reflexivity.
Defined.

(** The causes of a failure of the [try] block: the tool cannot be run or
    exits with an error, its output is not JSON, or a numeric field does
    not convert. *)
Lemma read_metadata_raises env name e :
  read_metadata env name = Raise e <->
  ffprobe env name = RunFails e \/ ffprobe env name = LoadsFails e \/
  exists f, ffprobe env name = Stdout (Some f) /\
    (fmt_duration f = Some (ConvRaises e) \/
     (forall e', fmt_duration f <> Some (ConvRaises e'))
     /\ fmt_size f = Some (ConvRaises e)).
Proof.
  unfold read_metadata.
  destruct (ffprobe env name) as [e'|e'|[f|]]; cbn.
  - split; [intros [= ->]; now left | intros [[= ->]|[[=]|[f [[=] _]]]]; reflexivity].
  - split; [intros [= ->]; right; now left
           | intros [[=]|[[= ->]|[f [[=] _]]]]; reflexivity].
  - destruct f as [tags [[e1|d]|] [[e2|z]|]]; cbn; split;
      try (intros [= ->]; right; right; eexists; split; [reflexivity|]; cbn;
           first [now left | right; split; [congruence|reflexivity]]);
      try discriminate;
      intros [[=]|[[=]|[f [[= <-] H]]]]; cbn in H;
      destruct H as [[= ->]|[H1 H2]]; try reflexivity; try discriminate;
      try (inversion H2; subst; reflexivity);
      exfalso; eapply H1; reflexivity.
  - split; [discriminate | intros [[=]|[[=]|[f [[=] _]]]]].
Qed.

(** C8: when the body of [get_mp3_metadata] raises, for whatever reason, the
    function returns [None]; the file gives no episode, and the loop goes on
    with the files that follow exactly as if the file were not there. *)
Theorem metadata_failure_skips_file (env : Env) (name : string) (e : exn) :
  read_metadata env name = Raise e ->
  get_mp3_metadata env name = None
  /\ (forall ep, In ep (episodes_of env) -> filename ep <> name)
  /\ (forall urls before mtime after acc,
        collect_episodes env urls (before ++ (name, mtime) :: after) acc
        = collect_episodes env urls (before ++ after) acc).
Proof.
  intros Hraise.
  assert (Hnone : get_mp3_metadata env name = None)
    by (unfold get_mp3_metadata; now rewrite Hraise).
  split; [exact Hnone|]. split.
  - intros ep Hin <-.
    apply (Permutation_in _ (sort_episodes_Permutation _)) in Hin.
    apply collect_episodes_In in Hin as [[]|[_ [_ H]]]. now apply H.
  - intros urls before mtime after acc.
    rewrite !collect_episodes_app. cbn [collect_episodes].
    rewrite Hnone. now destruct (is_temp_or_chunk name).
Qed.

Lemma metadata_failure_skips_file_witness :
  get_mp3_metadata env_probe_fails "a.mp3" = None
  /\ map filename (episodes_of env_probe_fails) = ["b.mp3"].
Proof.
  split.
  - apply (metadata_failure_skips_file env_probe_fails "a.mp3"
             (Exception "CalledProcessError")).
    reflexivity.
  - vm_compute. reflexivity.
Defined.

Lemma findall_duration (ep : Episode) :
  findall DURATION (item_of ep)
  = if 0 <? duration ep then [leaf DURATION (duration_str (duration ep))] else [].
Proof.
  unfold findall, item_of. cbn [children].
  rewrite !List.filter_app. destruct (0 <? duration ep); reflexivity.
Qed.

(** C9: an item has a duration element exactly when the duration is
    positive; its text is hours, minutes and seconds, each padded with zeros
    to two digits and separated by colons.  3725 seconds give ["01:02:05"],
    and a duration of 0 gives no element. *)
Theorem duration_element_iff_positive (ep : Episode) :
  ((exists e, In e (children (item_of ep)) /\ tag e = DURATION)
   <-> 0 < duration ep)
  /\ findall DURATION (item_of ep)
     = (if 0 <? duration ep
        then [leaf DURATION (duration_str (duration ep))] else [])
  /\ (0 < duration ep ->
      duration_str (duration ep)
      = format_02d (duration ep / 3600) ++ ":"
        ++ format_02d ((duration ep mod 3600) / 60) ++ ":"
        ++ format_02d (duration ep mod 60)
      /\ (2 <= String.length (format_02d (duration ep / 3600)))%nat
      /\ (duration ep < 360000 ->
          String.length (format_02d (duration ep / 3600)) = 2%nat)
      /\ String.length (format_02d ((duration ep mod 3600) / 60)) = 2%nat
      /\ String.length (format_02d (duration ep mod 60)) = 2%nat)
  /\ duration_str 3725 = "01:02:05"
  /\ (duration ep = 0 -> findall DURATION (item_of ep) = []).
Proof.
  pose proof (findall_duration ep) as Hfind.
  split; [|split; [exact Hfind|split; [|split]]].
  - split.
    + intros [e [Hin Htag]].
      destruct (Z.ltb_spec 0 (duration ep)) as [H|H]; [exact H|exfalso].
      assert (Hf : In e (findall DURATION (item_of ep))).
      { unfold findall. apply filter_In. split; [exact Hin|].
        now apply String.eqb_eq. }
      rewrite Hfind in Hf. exact Hf.
    + intros Hpos. exists (leaf DURATION (duration_str (duration ep))).
      assert (Hf : In (leaf DURATION (duration_str (duration ep)))
                      (findall DURATION (item_of ep))).
      { rewrite Hfind. apply Z.ltb_lt in Hpos. rewrite Hpos. now left. }
      unfold findall in Hf. apply filter_In in Hf as [Hin _].
      split; [exact Hin|reflexivity].
  - intros Hpos. split; [reflexivity|]. split; [|split; [|split]].
    + apply length_format_02d_ge_2, Z.div_pos; lia.
    + intros Hlt. apply format_02d_small. split; [apply Z.div_pos; lia|].
      apply Z.div_lt_upper_bound; lia.
    + apply format_02d_small.
      pose proof (Z.mod_pos_bound (duration ep) 3600 ltac:(lia)).
      split; [apply Z.div_pos; lia|apply Z.div_lt_upper_bound; lia].
    + apply format_02d_small.
      pose proof (Z.mod_pos_bound (duration ep) 60 ltac:(lia)). lia.
  - vm_compute. reflexivity.
  - intros H0. rewrite Hfind, H0. reflexivity.
Qed.

Lemma duration_element_iff_positive_witness :
  findall DURATION
    (item_of (mkEpisode "a.mp3" "a" "Jaxon Digital" "d" "u" "p" 3725 1))
  = [leaf DURATION "01:02:05"]
  /\ String.length (format_02d ((3725 mod 3600) / 60)) = 2%nat.
Proof.
  split.
  - apply (duration_element_iff_positive
             (mkEpisode "a.mp3" "a" "Jaxon Digital" "d" "u" "p" 3725 1)).
  - apply (duration_element_iff_positive
             (mkEpisode "a.mp3" "a" "Jaxon Digital" "d" "u" "p" 3725 1)).
    cbn [duration]. lia.
Defined.

(** C10: for a positive duration the three fields lose nothing: minutes and
    seconds lie in [0, 60), the fields add up to the duration, and each
    field reads back as its number.  The hours field has at least two
    characters and is never cut: from 360000 seconds on it has three or
    more. *)
Theorem duration_str_lossless (d : Z) :
  0 < d ->
  let hours := d / 3600 in
  let minutes := (d mod 3600) / 60 in
  let seconds := d mod 60 in
  duration_str d
  = format_02d hours ++ ":" ++ format_02d minutes ++ ":" ++ format_02d seconds
  /\ 0 <= minutes < 60 /\ 0 <= seconds < 60
  /\ hours * 3600 + minutes * 60 + seconds = d
  /\ int_of_str (format_02d hours) = Some hours
  /\ int_of_str (format_02d minutes) = Some minutes
  /\ int_of_str (format_02d seconds) = Some seconds
  /\ (2 <= String.length (format_02d hours))%nat
  /\ (360000 <= d -> (3 <= String.length (format_02d hours))%nat).
Proof.
  intros Hd hours minutes seconds.
  pose proof (Z.mod_pos_bound d 3600 ltac:(lia)) as H3600.
  pose proof (Z.mod_pos_bound d 60 ltac:(lia)) as H60.
  assert (Hh : 0 <= hours) by (apply Z.div_pos; lia).
  assert (Hm : 0 <= minutes < 60).
  { subst minutes. split; [apply Z.div_pos; lia|apply Z.div_lt_upper_bound; lia]. }
  split; [reflexivity|]. split; [exact Hm|]. split; [exact H60|]. split.
  { subst hours minutes seconds.
    pose proof (Z.div_mod d 3600 ltac:(lia)) as E1.
    pose proof (Z.div_mod (d mod 3600) 60 ltac:(lia)) as E2.
    assert (E3 : (d mod 3600) mod 60 = d mod 60).
    { pose proof (Z.mod_pos_bound (d mod 3600) 60 ltac:(lia)).
      apply (Z.mod_unique_pos d 60 (60 * (d / 3600) + (d mod 3600) / 60)); lia. }
    lia. }
  split; [now apply int_of_str_format_02d|].
  split; [apply int_of_str_format_02d; lia|].
  split; [apply int_of_str_format_02d; lia|].
  split; [now apply length_format_02d_ge_2|].
  intros Hbig. apply length_format_02d_ge_3.
  subst hours. apply Z.div_le_lower_bound; lia.
Qed.

Lemma duration_str_lossless_witness :
  duration_str 360000 = "100:00:00"
  /\ (3 <= String.length (format_02d (360000 / 3600)))%nat.
Proof.
  split.
  - vm_compute. reflexivity.
  - apply (duration_str_lossless 360000); lia.
Defined.

End FeedClaims.

(** ** The sync agent *)

Section SyncFacts.
Import Py SyncAudioToDrive SyncSpec.

Lemma mbind_inv {A B} (c : M A) (k : A -> M B) w r w' :
  mbind c k w = (r, w') ->
  (exists a w1, c w = (Ok a, w1) /\ k a w1 = (r, w'))
  \/ (exists e, c w = (Raise e, w') /\ r = Raise e).
Proof.
  unfold mbind. destruct (c w) as [[a|e] w1]; intros H.
  - left. eauto.
  - right. inversion H; subst. eauto.
Qed.

Lemma frame_refl w : frame w w.
Proof. repeat split. Qed.

Lemma frame_trans w1 w2 w3 : frame w1 w2 -> frame w2 w3 -> frame w1 w3.
Proof. unfold frame. intuition congruence. Qed.

(** One iteration never raises, and ends in one of the four outcomes. *)
Lemma sync_file_step existing_files filename st w :
  exists st' w',
    sync_file existing_files filename st w = (Ok st', w')
    /\ sync_step existing_files filename st w st' w'.
Proof.
  destruct st as [drive_urls n]. unfold sync_file.
  destruct (existing_files !! filename) as [url|] eqn:Hex.
  { eexists _, _. split; [reflexivity|].
    eapply Matched_remote; try eassumption; try reflexivity. repeat split. }
  destruct (drive_urls !! filename) as [u|] eqn:Hmap.
  { eexists _, _. split; [reflexivity|].
    eapply Matched_cache; try eassumption; try reflexivity; eauto.
    repeat split. }
  destruct w as [tok exp dir urls drv ps srv req out].
  unfold try_except, upload_file_to_drive, files_create, permissions_create,
    mbind, print, modify, execute, ret, set_stdout, set_drive, set_requests.
  cbn.
  destruct (srv req) as [e|id] eqn:H1; cbn.
  { eexists _, _. split; [reflexivity|].
    eapply Upload_failed; try eassumption; cbn.
    - left. split; [eassumption|reflexivity].
    - repeat split.
    - now rewrite <- app_assoc. }
  destruct (srv (S req)) as [e|ok] eqn:H2; cbn.
  { eexists _, _. split; [reflexivity|].
    eapply Upload_failed; try eassumption; cbn.
    - right. exists id. split; [eassumption|split; [eassumption|reflexivity]].
    - repeat split.
    - now rewrite <- app_assoc. }
  eexists _, _. split; [reflexivity|].
  eapply Upload_done; try eassumption; cbn; try reflexivity.
  - repeat split.
  - now rewrite <- app_assoc.
Qed.

Lemma sync_files_steps existing_files l st w :
  exists st' w',
    sync_files existing_files l st w = (Ok st', w')
    /\ sync_steps existing_files l st w st' w'.
Proof.
  revert st w. induction l as [|f l IH]; intros st w.
  - exists st, w. split; [reflexivity|constructor].
  - destruct (sync_file_step existing_files f st w) as [st1 [w1 [Hrun Hstep]]].
    destruct (IH st1 w1) as [st2 [w2 [Hrun2 Hsteps]]].
    exists st2, w2. split.
    + cbn [sync_files]. unfold mbind. now rewrite Hrun.
    + econstructor; eassumption.
Qed.

Lemma sync_step_frame E f st w st' w' : sync_step E f st w st' w' -> frame w w'.
Proof. now destruct 1. Qed.

Lemma sync_steps_frame E l st w st' w' : sync_steps E l st w st' w' -> frame w w'.
Proof.
  induction 1 as [|f rest st w st1 w1 st2 w2 Hstep _ IH]; [apply frame_refl|].
  eapply frame_trans; [eapply sync_step_frame; eassumption|exact IH].
Qed.

(** Entries are added or overwritten, never removed. *)
Lemma sync_step_dom E f st w st' w' :
  sync_step E f st w st' w' -> dom (fst st) ⊆ dom (fst st').
Proof. destruct 1; cbn; set_solver. Qed.

Lemma sync_steps_dom E l st w st' w' :
  sync_steps E l st w st' w' -> dom (fst st) ⊆ dom (fst st').
Proof.
  induction 1 as [|f rest st w st1 w1 st2 w2 Hstep _ IH]; [reflexivity|].
  etrans; [eapply sync_step_dom; eassumption|exact IH].
Qed.

(** Only the key of the file at hand changes. *)
Lemma sync_step_other E f st w st' w' k :
  sync_step E f st w st' w' -> k <> f -> fst st' !! k = fst st !! k.
Proof. destruct 1; cbn; intros Hk; try reflexivity; now rewrite lookup_insert_ne. Qed.

Lemma sync_steps_other E l st w st' w' k :
  sync_steps E l st w st' w' -> ~ In k l -> fst st' !! k = fst st !! k.
Proof.
  induction 1 as [|f rest st w st1 w1 st2 w2 Hstep _ IH]; [reflexivity|].
  intros Hk. rewrite IH by (intros H; apply Hk; now right).
  eapply sync_step_other; [eassumption|]. intros ->. apply Hk. now left.
Qed.

Lemma file_name_grant id f : file_name (grant_anyone_reader id f) = file_name f.
Proof. unfold grant_anyone_reader. now destruct (String.eqb (file_id f) id). Qed.

Lemma map_file_name_grant id l :
  map file_name (map (grant_anyone_reader id) l) = map file_name l.
Proof.
  rewrite map_map. apply map_ext. intros f. apply file_name_grant.
Qed.

(** The files a step adds to the remote store carry the name at hand. *)
Lemma sync_step_names E f st w st' w' :
  sync_step E f st w st' w' ->
  exists news, map file_name (drive w') = (map file_name (drive w) ++ news)%list
               /\ forall x, In x news -> x = f.
Proof.
  destruct 1 as [? ? ? ? ? ? ? Hd|? ? ? ? ? ? ? Hd|? ? ? ? ? ? ? ? ? ? ? Hd
                |? ? ? ? ? ? ? [[_ Hd]|[id [_ [_ Hd]]]]]; rewrite Hd.
  - exists []. rewrite app_nil_r. split; [reflexivity|intros ? []].
  - exists []. rewrite app_nil_r. split; [reflexivity|intros ? []].
  - exists [f]. rewrite map_file_name_grant, map_app. split; [reflexivity|].
    intros x [<-|[]]. reflexivity.
  - exists []. rewrite app_nil_r. split; [reflexivity|intros ? []].
  - exists [f]. rewrite map_app. split; [reflexivity|].
    intros x [<-|[]]. reflexivity.
Qed.

Lemma sync_steps_names E l st w st' w' :
  sync_steps E l st w st' w' ->
  exists news, map file_name (drive w') = (map file_name (drive w) ++ news)%list
               /\ forall x, In x news -> In x l.
Proof.
  induction 1 as [|f rest st w st1 w1 st2 w2 Hstep _ IH].
  - exists []. rewrite app_nil_r. split; [reflexivity|intros ? []].
  - destruct (sync_step_names _ _ _ _ _ _ Hstep) as [n1 [E1 H1]].
    destruct IH as [n2 [E2 H2]].
    exists (n1 ++ n2)%list. split.
    + now rewrite E2, E1, app_assoc.
    + intros x Hx. apply in_app_or in Hx as [Hx|Hx].
      * left. symmetry. now apply H1.
      * right. now apply H2.
Qed.

(** *** Listing the remote folder *)

Lemma concat_pages_of {A} n (page : list A) room l :
  concat (pages_of n page room l) = (rev page ++ l)%list.
Proof.
  revert page room. induction l as [|x l IH]; intros page room; cbn.
  - now rewrite !app_nil_r.
  - destruct room as [|room]; cbn; rewrite IH; cbn.
    + reflexivity.
    + now rewrite <- app_assoc.
Qed.

Lemma concat_paginate {A} n (l : list A) : concat (paginate n l) = l.
Proof. unfold paginate. now rewrite concat_pages_of. Qed.

Lemma record_page_app p q files :
  record_page (p ++ q) files = record_page q (record_page p files).
Proof. unfold record_page. apply fold_left_app. Qed.

Lemma list_pages_spec page more files w r w' :
  list_pages page more files w = (r, w') ->
  w' = set_requests (requests w') w
  /\ forall E, r = Ok E -> E = record_page (concat (page :: more)) files.
Proof.
  revert page files w r w'.
  induction more as [|next more IH]; intros page files w r w';
    cbn [list_pages]; unfold mbind, execute;
    destruct w as [tok exp dir urls drv ps srv req out]; cbn -[record_page concat];
    destruct (srv req) as [e|s]; cbn -[record_page concat].
  - intros [= <- <-]. split; [reflexivity|discriminate].
  - intros [= <- <-]. split; [reflexivity|].
    intros E [= <-]. cbn [concat]. now rewrite app_nil_r.
  - intros [= <- <-]. split; [reflexivity|discriminate].
  - intros H. apply IH in H as [Hw HE]. split.
    + rewrite Hw. reflexivity.
    + intros E ->. rewrite (HE _ eq_refl).
      change (concat (page :: next :: more))
        with (page ++ concat (next :: more))%list.
      now rewrite (record_page_app page).
Qed.

Lemma list_pages_answers page more files w :
  always_answers w -> exists E w', list_pages page more files w = (Ok E, w').
Proof.
  revert page files w. induction more as [|next more IH]; intros page files w Hw;
    cbn [list_pages]; unfold mbind, execute;
    destruct (Hw (requests w)) as [s ->].
  - eexists _, _. reflexivity.
  - apply IH. intros n. apply Hw.
Qed.

(** [list_drive_files] changes nothing but the count of requests; when no
    request fails it returns the listing of the folder. *)
Lemma list_drive_files_spec folder_id w r w' :
  list_drive_files folder_id w = (r, w') ->
  w' = set_requests (requests w') w
  /\ forall E, r = Ok E -> E = remote_listing folder_id (drive w).
Proof.
  unfold list_drive_files, mbind, get. cbn -[list_pages paginate].
  pose proof (concat_paginate (page_size w)
                (List.filter (matches_query folder_id) (drive w))) as Hc.
  destruct (paginate _ _) as [|page more].
  - intros H. apply list_pages_spec in H as [Hw HE]. split; [exact Hw|].
    intros E ->. rewrite (HE _ eq_refl). unfold remote_listing.
    now rewrite <- Hc.
  - intros H. apply list_pages_spec in H as [Hw HE]. split; [exact Hw|].
    intros E ->. rewrite (HE _ eq_refl). unfold remote_listing.
    now rewrite <- Hc.
Qed.

Lemma list_drive_files_answers folder_id w :
  always_answers w -> exists E w', list_drive_files folder_id w = (Ok E, w').
Proof.
  intros Hw. unfold list_drive_files, mbind, get. cbn -[list_pages paginate].
  destruct (paginate _ _); now apply list_pages_answers.
Qed.

Lemma get_drive_service_spec w r w' :
  get_drive_service w = (r, w') ->
  w' = set_token_file (token_file w') (set_requests (requests w') w)
  /\ (token_file w = None -> exists e, r = Raise e).
Proof.
  destruct w as [tok exp dir urls drv ps srv req out].
  unfold get_drive_service, mbind, get, raise, ret, modify, execute. cbn.
  destruct tok as [t|]; cbn.
  - destruct (exp && truthy (refresh_token t)); cbn.
    + destruct (srv req); cbn; intros [= <- <-]; split; (reflexivity || discriminate).
    + intros [= <- <-]; split; (reflexivity || discriminate).
  - intros [= <- <-]. split; [reflexivity|eauto].
Qed.

Lemma get_drive_service_answers w :
  token_file w <> None -> always_answers w ->
  exists w', get_drive_service w = (Ok tt, w').
Proof.
  intros Htok Hw. unfold get_drive_service, mbind, get, raise, ret, modify, execute.
  cbn. destruct (token_file w) as [t|]; [|congruence].
  destruct (creds_expired w && truthy (refresh_token t)).
  - destruct (Hw (requests w)) as [s ->]. eauto.
  - eauto.
Qed.

(** *** A whole run *)

Lemma print_run l w : print l w = (Ok tt, set_stdout (stdout w ++ [l])%list w).
Proof. reflexivity. Qed.

Lemma get_run {A} (f : World -> A) w : get f w = (Ok (f w), w).
Proof. reflexivity. Qed.

(** A run either raises before the loop, leaving the remote store and the
    mapping file as they were, or goes through the loop and saves. *)
Lemma main_inv w r w' :
  main w = (r, w') ->
  (exists e, r = Raise e /\ drive w' = drive w
             /\ drive_urls_file w' = drive_urls_file w)
  \/ (r = Ok tt /\ exists w1 w2 drive_urls n,
        drive w1 = drive w /\ token_file w <> None
        /\ sync_steps (remote_listing MP3_FOLDER_ID (drive w)) (local_mp3s w)
                      (saved_mapping w, O) w1 (drive_urls, n) w2
        /\ drive w' = drive w2 /\ drive_urls_file w' = Some drive_urls
        /\ audio_dir w' = audio_dir w /\ server w' = server w
        /\ page_size w' = page_size w /\ token_file w' <> None
        /\ stdout w' = (stdout w2 ++ [Summary n (size drive_urls)])%list).
Proof.
  unfold main. intros H.
  apply mbind_inv in H as [(? & w0 & Hp & H)|(? & Hp & _)];
    rewrite print_run in Hp; [|discriminate].
  injection Hp as _ <-.
  apply mbind_inv in H as [(? & ws & Hs & H)|(e & Hs & ->)].
  2:{ left. exists e. apply get_drive_service_spec in Hs as [-> _].
      repeat split. }
  pose proof (get_drive_service_spec _ _ _ Hs) as [Hws Htok].
  assert (Htok' : token_file w <> None).
  { intros Hn. destruct (Htok Hn) as [e He]. discriminate. }
  assert (Htok'' : token_file ws <> None).
  { clear - Hs Htok'. destruct w as [tok exp dir urls drv ps srv req out].
    revert Hs. unfold get_drive_service, mbind, get, raise, ret, modify, execute.
    cbn in *. destruct tok as [t|]; [|congruence]. cbn.
    destruct (exp && truthy (refresh_token t)); cbn.
    - destruct (srv req); cbn; intros H0;
        first [discriminate H0 | injection H0 as _ <-; discriminate].
    - intros H0. injection H0 as _ <-. discriminate. }
  apply mbind_inv in H as [(E & wl & Hl & H)|(e & Hl & ->)].
  2:{ left. exists e. apply list_drive_files_spec in Hl as [-> _].
      rewrite Hws. repeat split. }
  apply list_drive_files_spec in Hl as [Hwl HE].
  specialize (HE _ eq_refl).
  apply mbind_inv in H as [(? & w3 & Hp & H)|(? & Hp & _)];
    rewrite print_run in Hp; [|discriminate].
  injection Hp as _ <-.
  apply mbind_inv in H as [(saved & w4 & Hg & H)|(? & Hg & _)];
    rewrite get_run in Hg; [|discriminate].
  injection Hg as <- <-.
  apply mbind_inv in H as [(local & w5 & Hg & H)|(? & Hg & _)];
    rewrite get_run in Hg; [|discriminate].
  injection Hg as <- <-.
  apply mbind_inv in H as [(? & w6 & Hp & H)|(? & Hp & _)];
    rewrite print_run in Hp; [|discriminate].
  injection Hp as _ <-.
  match type of H with
  | mbind (sync_files ?E ?l ?st) _ ?w0 = _ =>
      destruct (sync_files_steps E l st w0) as [[M n] [w2 [Hrun Hsteps]]]
  end.
  unfold mbind at 1 in H. rewrite Hrun in H.
  unfold mbind, modify, print in H. cbn in H. injection H as <- <-.
  right. split; [reflexivity|].
  eexists _, w2, M, n.
  pose proof (sync_steps_frame _ _ _ _ _ _ Hsteps) as (F1 & F2 & F3 & F4 & F5 & F6).
  assert (Hdrv : drive ws = drive w) by (rewrite Hws; reflexivity).
  assert (Hdir : audio_dir ws = audio_dir w) by (rewrite Hws; reflexivity).
  assert (Hurl : drive_urls_file ws = drive_urls_file w) by (rewrite Hws; reflexivity).
  assert (Hsrv : server ws = server w) by (rewrite Hws; reflexivity).
  assert (Hps : page_size ws = page_size w) by (rewrite Hws; reflexivity).
  rewrite Hwl in Hsteps, F1, F2, F3, F4, F5, F6. cbn in F1, F2, F3, F4, F5, F6.
  split; [|split; [exact Htok'|split; [|repeat split]]].
  2:{ rewrite Hdrv in HE. subst E.
      unfold local_mp3s, saved_mapping in *. cbn in Hsteps.
      rewrite Hdir, Hurl in Hsteps. exact Hsteps. }
  - cbn. exact Hdrv.
  - cbn. congruence.
  - cbn. congruence.
  - cbn. congruence.
  - cbn. congruence.
Qed.

(** With a token in place and a remote side that answers, a run reaches
    the save. *)
Lemma main_answers w :
  token_file w <> None -> always_answers w -> exists w', main w = (Ok tt, w').
Proof.
  intros Htok Hw. unfold main.
  unfold mbind at 1. cbn [print modify].
  destruct (get_drive_service_answers (set_stdout (stdout w ++ [Header]) w))
    as [ws Hs]; [exact Htok|exact Hw|].
  unfold mbind at 1. rewrite Hs.
  pose proof (get_drive_service_spec _ _ _ Hs) as [Hws _].
  destruct (list_drive_files_answers MP3_FOLDER_ID ws) as [E [wl Hl]].
  { intros n. rewrite Hws. apply Hw. }
  unfold mbind at 1. rewrite Hl.
  unfold mbind at 1. cbn [print modify].
  unfold mbind at 1. cbn [get].
  unfold mbind at 1. cbn [get].
  unfold mbind at 1. cbn [print modify].
  match goal with
  | |- context [sync_files ?E ?l ?st] =>
      match goal with
      | |- exists _, mbind _ _ ?w0 = _ =>
          destruct (sync_files_steps E l st w0) as [[M n] [w2 [Hrun _]]]
      end
  end.
  unfold mbind at 1. rewrite Hrun.
  eexists. reflexivity.
Qed.

End SyncFacts.

Section SyncTwice.
Import Py SyncAudioToDrive SyncSpec.

Lemma matches_query_grant folder_id id f :
  matches_query folder_id (grant_anyone_reader id f) = matches_query folder_id f.
Proof. unfold grant_anyone_reader. now destruct (String.eqb (file_id f) id). Qed.

Lemma file_id_grant id f : file_id (grant_anyone_reader id f) = file_id f.
Proof. unfold grant_anyone_reader. now destruct (String.eqb (file_id f) id). Qed.

Lemma record_page_grant folder_id id remote files :
  record_page (List.filter (matches_query folder_id)
                 (map (grant_anyone_reader id) remote)) files
  = record_page (List.filter (matches_query folder_id) remote) files.
Proof.
  revert files. induction remote as [|f remote IH]; intros files; [reflexivity|].
  cbn [map List.filter]. rewrite matches_query_grant.
  destruct (matches_query folder_id f); [|apply IH].
  unfold record_page in *. cbn [fold_left].
  now rewrite file_name_grant, file_id_grant, IH.
Qed.

(** Granting a permission does not change what the folder lists. *)
Lemma remote_listing_grant folder_id id remote :
  remote_listing folder_id (map (grant_anyone_reader id) remote)
  = remote_listing folder_id remote.
Proof. apply record_page_grant. Qed.

(** A file created last is listed last. *)
Lemma remote_listing_snoc folder_id remote f :
  remote_listing folder_id (remote ++ [f])
  = if matches_query folder_id f
    then <[file_name f := download_link (file_id f)]> (remote_listing folder_id remote)
    else remote_listing folder_id remote.
Proof.
  unfold remote_listing. rewrite List.filter_app, record_page_app.
  cbn [List.filter]. now destruct (matches_query folder_id f).
Qed.

Lemma no_error_prefix (a b : list Line) : no_error (a ++ b) -> no_error a.
Proof. intros H e Hin. apply (H e), in_or_app. now left. Qed.

Lemma sync_step_stdout E f st w st' w' :
  sync_step E f st w st' w' -> exists out, stdout w' = (stdout w ++ out)%list.
Proof. destruct 1; eauto. Qed.

Lemma sync_steps_stdout E l st w st' w' :
  sync_steps E l st w st' w' -> exists out, stdout w' = (stdout w ++ out)%list.
Proof.
  induction 1 as [|f rest st w st1 w1 st2 w2 Hstep _ [o2 IH]].
  - exists []. now rewrite app_nil_r.
  - destruct (sync_step_stdout _ _ _ _ _ _ Hstep) as [o1 H1].
    exists (o1 ++ o2)%list. now rewrite IH, H1, app_assoc.
Qed.

(** A step that printed no error was not a failed upload: it leaves the
    file mapped, and keeps the listing and the mapping in agreement. *)
Lemma sync_step_quiet E f st w st' w' :
  sync_step E f st w st' w' ->
  no_error (stdout w') ->
  is_Some (fst st' !! f)
  /\ (forall u, E !! f = Some u -> fst st' !! f = Some u)
  /\ (listing_agrees E (fst st) (drive w) -> listing_agrees E (fst st') (drive w')).
Proof.
  destruct 1 as [M n w w' url Hex _ Hd _ _
                |M n w w' Hex Hmap _ Hd _ _
                |M n w w' id ok Hex Hmap _ _ _ Hd _ _
                |M n w w' e Hex Hmap _ _ Hout]; cbn [fst]; intros Hquiet.
  - split; [rewrite lookup_insert_eq; eauto|]. split.
    + intros u Hu. rewrite lookup_insert_eq. congruence.
    + rewrite Hd. intros [H1 H2]. split; [|exact H2].
      intros k u Hk. destruct (decide (k = f)) as [->|Hne].
      * left. rewrite (H2 _ _ Hex) in Hk. congruence.
      * rewrite lookup_insert_ne by congruence. now apply H1.
  - split; [exact Hmap|]. split; [congruence|]. now rewrite Hd.
  - split; [rewrite lookup_insert_eq; eauto|]. split; [congruence|].
    unfold listing_agrees.
    rewrite Hd, remote_listing_grant, remote_listing_snoc.
    intros [H1 H2]. cbn [file_name file_id new_file].
    destruct (matches_query MP3_FOLDER_ID (new_file id f)); split.
    + intros k u Hk. destruct (decide (k = f)) as [->|Hne].
      * rewrite lookup_insert_eq in Hk. right. now rewrite lookup_insert_eq.
      * rewrite lookup_insert_ne in Hk by congruence.
        rewrite lookup_insert_ne by congruence. now apply H1.
    + intros k u Hk. rewrite lookup_insert_ne by congruence. now apply H2.
    + intros k u Hk. destruct (decide (k = f)) as [->|Hne].
      * apply H1 in Hk as [Hk|Hk]; congruence.
      * rewrite lookup_insert_ne by congruence. now apply H1.
    + exact H2.
  - exfalso. apply (Hquiet e). rewrite Hout. apply in_or_app. right.
    right. now left.
Qed.

Lemma sync_steps_remote_stable E l st w st' w' f u :
  sync_steps E l st w st' w' ->
  E !! f = Some u -> fst st !! f = Some u -> fst st' !! f = Some u.
Proof.
  induction 1 as [|g rest st w st1 w1 st2 w2 Hstep _ IH]; [tauto|].
  intros Hex Hst. apply IH; [exact Hex|].
  destruct (decide (f = g)) as [->|Hne].
  - destruct Hstep; cbn [fst] in *; try congruence.
    rewrite lookup_insert_eq. congruence.
  - rewrite (sync_step_other _ _ _ _ _ _ f Hstep Hne). exact Hst.
Qed.

(** After a loop that printed no error, every local file is mapped, the
    files listed at the start are mapped to their listed URL, and the
    listing of the folder agrees with the mapping. *)
Lemma sync_steps_quiet E l st w st' w' :
  sync_steps E l st w st' w' ->
  no_error (stdout w') ->
  (forall f, In f l -> is_Some (fst st' !! f))
  /\ (forall f u, In f l -> E !! f = Some u -> fst st' !! f = Some u)
  /\ (listing_agrees E (fst st) (drive w) -> listing_agrees E (fst st') (drive w')).
Proof.
  induction 1 as [|g rest st w st1 w1 st2 w2 Hstep Hsteps IH]; intros Hquiet.
  - split; [intros ? []|]. split; [intros ? ? []|tauto].
  - destruct (IH Hquiet) as (IH1 & IH2 & IH3).
    destruct (sync_steps_stdout _ _ _ _ _ _ Hsteps) as [out Hout].
    assert (Hq1 : no_error (stdout w1)).
    { rewrite Hout in Hquiet. now apply no_error_prefix in Hquiet. }
    destruct (sync_step_quiet _ _ _ _ _ _ Hstep Hq1) as (S1 & S2 & S3).
    split; [|split].
    + intros f [<-|Hin]; [|now apply IH1].
      destruct S1 as [u Hu]. apply sync_steps_dom in Hsteps.
      apply elem_of_dom. apply Hsteps. apply elem_of_dom. eauto.
    + intros f u [<-|Hin] Hex; [|now apply IH2].
      eapply sync_steps_remote_stable; eauto.
    + intros Hagree. apply IH3, S3, Hagree.
Qed.

(** A loop over files that are all mapped, and mapped to what the folder
    lists for them, changes nothing and uploads nothing. *)
Lemma sync_steps_settled E l st w st' w' :
  sync_steps E l st w st' w' ->
  (forall f, In f l -> is_Some (fst st !! f)) ->
  (forall f u, In f l -> E !! f = Some u -> fst st !! f = Some u) ->
  st' = st /\ drive w' = drive w /\ requests w' = requests w.
Proof.
  induction 1 as [|g rest st w st1 w1 st2 w2 Hstep _ IH]; intros Hall Hlist.
  - repeat split.
  - assert (H1 : st1 = st /\ drive w1 = drive w /\ requests w1 = requests w).
    { destruct Hstep as [M n w w1 url Hex _ Hd Hr _
                        |M n w w1 Hex Hmap _ Hd Hr _
                        |M n w w1 id ok Hex Hmap
                        |M n w w1 e Hex Hmap]; cbn [fst] in *.
      - split; [|split; assumption]. f_equal. apply insert_id.
        apply Hlist; [now left|exact Hex].
      - repeat split; assumption.
      - destruct (Hall g (or_introl eq_refl)) as [u Hu]. congruence.
      - destruct (Hall g (or_introl eq_refl)) as [u Hu]. congruence. }
    destruct H1 as (-> & Hd1 & Hr1).
    destruct IH as (-> & Hd2 & Hr2).
    + intros f Hin. apply Hall. now right.
    + intros f u Hin. apply Hlist. now right.
    + repeat split; congruence.
Qed.

End SyncTwice.

Section SyncClaims.
Import Py SyncAudioToDrive SyncSpec Examples.

(** C7: a run that reaches the save writes a mapping whose keys include
    every key of the mapping it loaded. *)
Theorem sync_never_prunes (w w' : World) :
  main w = (Ok tt, w') ->
  exists saved, drive_urls_file w' = Some saved
                /\ dom (saved_mapping w) ⊆ dom saved.
Proof.
  intros H. apply main_inv in H as [(e & [=] & _)|(_ & w1 & w2 & M & n & H)].
  destruct H as (_ & _ & Hsteps & _ & Hsaved & _).
  exists M. split; [exact Hsaved|].
  apply sync_steps_dom in Hsteps. exact Hsteps.
Qed.

Lemma sync_never_prunes_witness :
  exists saved, drive_urls_file (snd (main world_sync)) = Some saved
                /\ dom (saved_mapping world_sync) ⊆ dom saved.
Proof.
  apply (sync_never_prunes world_sync (snd (main world_sync))).
  vm_compute. reflexivity.
Defined.

Lemma marker_not_local (name : string) (w : World) :
  (exists pre post, name = pre ++ ".temp." ++ post)
  \/ (exists pre post, name = pre ++ ".chunk" ++ post) ->
  ~ In name (local_mp3s w).
Proof.
  intros Hmark Hin. unfold local_mp3s in Hin.
  apply filter_In in Hin as [_ Hin]. apply andb_true_iff in Hin as [H1 H2].
  apply negb_true_iff in H1, H2.
  destruct Hmark as [Hm|Hm]; apply str_contains_spec in Hm; congruence.
Qed.

(** C6: a file whose name contains [.temp.] or [.chunk] gives no episode,
    hence no item, to the feed, and no run of the sync agent uploads it:
    the files a run adds to the remote store never carry its name. *)
Theorem temp_and_chunk_files_are_skipped (name : string) :
  (exists pre post, name = pre ++ ".temp." ++ post)
  \/ (exists pre post, name = pre ++ ".chunk" ++ post) ->
  (forall env,
      (forall ep, In ep (GenerateFeed.episodes_of env) ->
                  GenerateFeed.filename ep <> name)
      /\ GenerateFeed.feed_items (GenerateFeed.generate_rss env)
         = map GenerateFeed.item_of (GenerateFeed.episodes_of env))
  /\ (forall w r w',
        main w = (r, w') ->
        exists news,
          map file_name (drive w') = (map file_name (drive w) ++ news)%list
          /\ ~ In name news).
Proof.
  intros Hmark. split.
  - intros env. split; [|apply feed_items_generate_rss].
    intros ep Hin <-.
    apply (Permutation_in _ (sort_episodes_Permutation _)) in Hin.
    apply collect_episodes_In in Hin as [[]|(_ & Hf & _)].
    unfold GenerateFeed.is_temp_or_chunk in Hf.
    apply orb_false_iff in Hf as [H1 H2].
    destruct Hmark as [Hm|Hm]; apply str_contains_spec in Hm; congruence.
  - intros w r w' H.
    apply main_inv in H as [(e & _ & Hd & _)|(_ & w1 & w2 & M & n & H)].
    + exists []. rewrite Hd, app_nil_r. split; [reflexivity|intros []].
    + destruct H as (Hd1 & _ & Hsteps & Hd2 & _).
      apply sync_steps_names in Hsteps as [news [Hn Hin]].
      exists news. rewrite Hd2, Hn, Hd1. split; [reflexivity|].
      intros Hx. apply (marker_not_local name w Hmark). now apply Hin.
Qed.

Lemma temp_and_chunk_files_are_skipped_witness :
  exists news,
    map file_name (drive (snd (main world_sync)))
    = (map file_name (drive world_sync) ++ news)%list
    /\ ~ In "c.temp.mp3" news.
Proof.
  refine (proj2 (temp_and_chunk_files_are_skipped "c.temp.mp3" _)
                world_sync (fst (main world_sync)) _ _).
  - left. exists "c", "mp3". reflexivity.
  - apply surjective_pairing.
Defined.

(** C4, as amended: when a file that did not occur earlier in the loop is
    reached, its entry is still the loaded one, and exactly one branch
    applies, in this order.  A listed file gets its listed URL, over any
    saved value.  Else a file with a saved entry keeps it.  Else an upload
    is attempted: if the creation and the permission request both succeed,
    the file is on the Drive with public read permission and its download
    URL is recorded; if either raises, the error is printed and nothing is
    recorded for the file.  The iteration itself never raises. *)
Theorem sync_file_branches (existing_files saved : gmap string string)
    (before : list string) (filename : string) (w w1 : World)
    (drive_urls : gmap string string) (n : nat) :
  ~ In filename before ->
  sync_files existing_files before (saved, O) w = (Ok (drive_urls, n), w1) ->
  exists st' w2,
    sync_file existing_files filename (drive_urls, n) w1 = (Ok st', w2)
    /\ match existing_files !! filename, saved !! filename with
       | Some url, _ =>
           st' = (<[filename := url]> drive_urls, n) /\ drive w2 = drive w1
       | None, Some url =>
           st' = (drive_urls, n) /\ drive_urls !! filename = Some url
           /\ drive w2 = drive w1
       | None, None =>
           match server w1 (requests w1), server w1 (S (requests w1)) with
           | Done id, Done _ =>
               st' = (<[filename := download_link id]> drive_urls, S n)
               /\ drive w2 = map (grant_anyone_reader id)
                                 (drive w1 ++ [new_file id filename])%list
               /\ In (mkDriveFile id filename [MP3_FOLDER_ID]
                                  (guess_type filename) false true) (drive w2)
           | Fails e, _ | Done _, Fails e =>
               st' = (drive_urls, n) /\ drive_urls !! filename = None
               /\ In (Error e) (stdout w2)
           end
       end.
Proof.
  intros Hfresh Hrun.
  destruct (sync_files_steps existing_files before (saved, O) w)
    as [st1 [w1' [Hrun' Hsteps]]].
  rewrite Hrun in Hrun'. injection Hrun' as <- <-.
  pose proof (sync_steps_other _ _ _ _ _ _ filename Hsteps Hfresh) as Hsame.
  cbn [fst] in Hsame.
  destruct (sync_file_step existing_files filename (drive_urls, n) w1)
    as [st' [w2 [Hfile Hstep]]].
  exists st', w2. split; [exact Hfile|].
  rewrite <- Hsame.
  inversion Hstep as [M k wa wb url Hex _ Hd _ _
                     |M k wa wb Hex [u Hmap] _ Hd _ _
                     |M k wa wb id ok Hex Hmap Hs1 Hs2 _ Hd _ _
                     |M k wa wb e Hex Hmap Hsrv _ Hout]; subst.
  - rewrite Hex. split; [reflexivity|exact Hd].
  - rewrite Hex, Hmap. repeat split; assumption.
  - rewrite Hex, Hmap, Hs1, Hs2. split; [reflexivity|]. split; [exact Hd|].
    rewrite Hd. apply in_map_iff. exists (new_file id filename). split.
    + unfold grant_anyone_reader, new_file. cbn. now rewrite String.eqb_refl.
    + apply in_or_app. right. now left.
  - rewrite Hex, Hmap.
    assert (Hin : In (Error e) (stdout w2)).
    { rewrite Hout. apply in_or_app. right. right. now left. }
    destruct Hsrv as [[Hs1 _]|[id [Hs1 [Hs2 _]]]].
    + rewrite Hs1. repeat split; assumption.
    + rewrite Hs1, Hs2. repeat split; assumption.
Qed.

Lemma sync_file_branches_witness :
  exists st' w2,
    sync_file (remote_listing MP3_FOLDER_ID (drive world_sync)) "b.mp3"
      (<["a.mp3" := download_link "N1"]> (saved_mapping world_sync), 1%nat)
      (snd (sync_files (remote_listing MP3_FOLDER_ID (drive world_sync))
              ["a.mp3"] (saved_mapping world_sync, O)
              (set_requests 1 world_sync)))
    = (Ok st', w2)
    /\ st' = (<["b.mp3" := download_link "X1"]>
               (<["a.mp3" := download_link "N1"]> (saved_mapping world_sync)),
             1%nat).
Proof.
  destruct (sync_file_branches
              (remote_listing MP3_FOLDER_ID (drive world_sync))
              (saved_mapping world_sync) ["a.mp3"] "b.mp3"
              (set_requests 1 world_sync)
              (snd (sync_files (remote_listing MP3_FOLDER_ID (drive world_sync))
                      ["a.mp3"] (saved_mapping world_sync, O)
                      (set_requests 1 world_sync)))
              (<["a.mp3" := download_link "N1"]> (saved_mapping world_sync))
              1%nat) as [st' [w2 [Hrun Hcase]]].
  - intros [H|[]]. discriminate H.
  - vm_compute. reflexivity.
  - exists st', w2. split; [exact Hrun|].
    change (remote_listing MP3_FOLDER_ID (drive world_sync) !! "b.mp3")
      with (Some (download_link "X1")) in Hcase.
    apply Hcase.
Defined.

(** C4, as stated, fails when the upload fails: [a.mp3] is a local file
    that is neither listed nor mapped, the remote side refuses to create
    it, and the run ends with nothing uploaded and nothing recorded. *)
Lemma failed_upload_records_nothing :
  In "a.mp3" (local_mp3s world_down)
  /\ remote_listing MP3_FOLDER_ID (drive world_down) !! "a.mp3" = None
  /\ saved_mapping world_down !! "a.mp3" = None
  /\ fst (main world_down) = Ok tt
  /\ drive (snd (main world_down)) = []
  /\ drive_urls_file (snd (main world_down)) = Some ∅.
Proof. vm_compute. repeat split. now left. Qed.

(** C5: after a run that reached the save and printed no error, a second
    run on the machine as the first one left it adds no file to the remote
    store and leaves the mapping file as it is; if it reaches the save it
    reports zero uploads. *)
Theorem sync_twice_uploads_nothing (w0 w1 w2 : World) (r2 : result unit) :
  main w0 = (Ok tt, w1) ->
  no_error (stdout w1) ->
  main w1 = (r2, w2) ->
  drive w2 = drive w1
  /\ drive_urls_file w2 = drive_urls_file w1
  /\ (r2 = Ok tt ->
      exists out total, stdout w2 = (out ++ [Summary 0 total])%list).
Proof.
  intros Hrun1 Hquiet Hrun2.
  apply main_inv in Hrun1 as [(e & [=] & _)|(_ & wa & wb & M1 & n1 & H1)].
  destruct H1 as (Hda & _ & Hsteps1 & Hdb & Hsaved1 & Hdir & _ & _ & _ & Hout1).
  assert (Hqb : no_error (stdout wb)).
  { rewrite Hout1 in Hquiet. now apply no_error_prefix in Hquiet. }
  destruct (sync_steps_quiet _ _ _ _ _ _ Hsteps1 Hqb) as (A1 & A2 & A3).
  cbn [fst] in A1, A2, A3.
  assert (Hagree : listing_agrees (remote_listing MP3_FOLDER_ID (drive w0)) M1
                     (drive w1)).
  { rewrite Hdb. apply A3. rewrite Hda. split; [intros k u Hk; now left|tauto]. }
  apply main_inv in Hrun2 as [(e & -> & Hd & Hu)|(-> & wc & wd & M2 & n2 & H2)].
  { split; [exact Hd|]. split; [exact Hu|discriminate]. }
  destruct H2 as (Hdc & _ & Hsteps2 & Hdd & Hsaved2 & _ & _ & _ & _ & Hout2).
  assert (Hlocal : local_mp3s w1 = local_mp3s w0).
  { unfold local_mp3s. now rewrite Hdir. }
  assert (Hmap : saved_mapping w1 = M1).
  { unfold saved_mapping. now rewrite Hsaved1. }
  rewrite Hlocal, Hmap in Hsteps2.
  apply sync_steps_settled in Hsteps2 as (Hst & Hd & _); cbn [fst].
  - injection Hst as -> ->.
    split; [congruence|]. split; [congruence|].
    intros _. eauto.
  - exact A1.
  - intros f u Hin Hlisted.
    destruct Hagree as [Hag _]. apply Hag in Hlisted as [Hl|Hl]; [|exact Hl].
    now apply A2.
Qed.

Lemma sync_twice_uploads_nothing_witness :
  drive (snd (main (snd (main world_sync)))) = drive (snd (main world_sync))
  /\ drive_urls_file (snd (main (snd (main world_sync))))
     = drive_urls_file (snd (main world_sync)).
Proof.
  destruct (sync_twice_uploads_nothing world_sync (snd (main world_sync))
              (snd (main (snd (main world_sync))))
              (fst (main (snd (main world_sync))))) as (Hd & Hu & _).
  - vm_compute. reflexivity.
  - intros e Hin. vm_compute in Hin.
    repeat (destruct Hin as [Hin|Hin]; [discriminate Hin|]). exact Hin.
  - apply surjective_pairing.
  - split; assumption.
Defined.

End SyncClaims.

Section FeedDefects.
Import Py GenerateFeed Examples.

(** The date string always ends in the UTC offset. *)
Lemma pub_date_of_carries_offset env mtime :
  endswith (pub_date_of env mtime) " +0000" = true.
Proof.
  unfold pub_date_of.
  destruct (endswith (strftime_rfc822 (fromtimestamp (utcoffset env) mtime))
              " +0000") eqn:H; cbn [negb]; [exact H|].
  apply endswith_append.
Qed.

(** C1: the sort key is the formatted date string, so the order is that of
    the strings, not that of the dates.  [a.mp3] was modified on Monday
    6 January 2025 and [b.mp3] five days earlier, on Wednesday 1 January;
    the item of [b.mp3] comes first, because ["Wed"] sorts after ["Mon"]. *)
Example items_follow_date_strings :
  map (fun ep => (filename ep, pub_date ep)) (episodes_of env_two_dates)
  = [ ("b.mp3", "Wed, 01 Jan 2025 00:00:00  +0000");
      ("a.mp3", "Mon, 06 Jan 2025 00:00:00  +0000") ]
  /\ map (fun item => map text (findall "pubDate" item))
         (feed_items (generate_rss env_two_dates))
     = [ [Some "Wed, 01 Jan 2025 00:00:00  +0000"];
         [Some "Mon, 06 Jan 2025 00:00:00  +0000"] ].
Proof. vm_compute. split; reflexivity. Qed.

(** C2: the date string is the wall-clock reading of the machine's own time
    zone with [+0000] appended.  Five hours west of UTC, a file modified at
    the epoch, 1 January 1970 00:00:00 UTC, is dated 31 December 1969
    19:00:00 +0000, an instant five hours earlier. *)
Example pub_date_is_local_wall_clock :
  map pub_date (episodes_of env_west) = ["Wed, 31 Dec 1969 19:00:00  +0000"]
  /\ strftime_rfc822 (wall_clock 0 0) = "Thu, 01 Jan 1970 00:00:00 ".
Proof. vm_compute. split; reflexivity. Qed.

End FeedDefects.

(** ** The built-ins on a few values *)

Section BuiltinExamples.
Import Py.

Example str_contains_examples :
  str_contains ".temp." "talk.temp.mp3" = true
  /\ str_contains ".chunk" "talk.chunk3.mp3" = true
  /\ str_contains ".chunk" "talk.mp3" = false.
Proof. repeat split. Qed.

Example stem_examples :
  stem "talk.mp3" = "talk" /\ stem "a.b.mp3" = "a.b" /\ stem ".mp3" = ".mp3".
Proof. repeat split. Qed.

Example format_02d_examples :
  format_02d 0 = "00" /\ format_02d 5 = "05" /\ format_02d 59 = "59"
  /\ format_02d 123 = "123" /\ format_02d (-5) = "-5".
Proof. vm_compute. repeat split. Qed.

Example strftime_example :
  strftime_rfc822 (fromtimestamp (fun _ => 0) 1735689600)
  = "Wed, 01 Jan 2025 00:00:00 ".
Proof. vm_compute. reflexivity. Qed.

End BuiltinExamples.

(** * Further properties of the feed generator *)

Section FeedExtras.
Import Py GenerateFeed FeedSpec Examples.

Lemma append_nil_r (s : string) : s ++ "" = s.
Proof. induction s as [|c s IH]; simpl; [reflexivity|now rewrite IH]. Qed.

Lemma endswith_spec (s suffix : string) :
  endswith s suffix = true -> exists pre, s = pre ++ suffix.
Proof.
  induction s as [|c s IH]; cbn [endswith]; intros H.
  - rewrite orb_false_r in H. apply String.eqb_eq in H as <-. now exists "".
  - apply orb_true_iff in H as [H|H].
    + apply String.eqb_eq in H as <-. now exists "".
    + destruct (IH H) as [pre ->]. now exists (String c pre).
Qed.

Lemma append_last_inj (a b : string) (c d : ascii) :
  a ++ String c "" = b ++ String d "" -> c = d.
Proof.
  revert b. induction a as [|x a IH]; intros [|y b]; simpl; intros H.
  - congruence.
  - injection H as _ H. destruct b; discriminate.
  - injection H as _ H. destruct a; discriminate.
  - injection H as _ H. now apply (IH b).
Qed.

(** A string that ends in a space does not end in [" +0000"]. *)
Lemma endswith_after_space (body : string) :
  endswith (body ++ " ") " +0000" = false.
Proof.
  destruct (endswith (body ++ " ") " +0000") eqn:H; [|reflexivity].
  apply endswith_spec in H as [pre H].
  change " +0000" with (" +000" ++ "0") in H.
  rewrite <- append_assoc in H. apply append_last_inj in H. discriminate.
Qed.

Lemma strftime_rfc822_ends_in_space (dt : datetime) :
  exists body, strftime_rfc822 dt = body ++ " ".
Proof.
  unfold strftime_rfc822. eexists.
  rewrite <- !append_assoc, append_nil_r. reflexivity.
Qed.

(** X7: the guard before the offset is appended never holds, because the
    formatted local time ends in the space that precedes the empty [%z];
    the date string is always that text followed by [" +0000"], with two
    spaces before the offset. *)
Theorem pub_date_of_form (env : Env) (mtime : Z) :
  pub_date_of env mtime
  = strftime_rfc822 (fromtimestamp (utcoffset env) mtime) ++ " +0000"
  /\ exists body, pub_date_of env mtime = body ++ "  +0000".
Proof.
  unfold pub_date_of.
  destruct (strftime_rfc822_ends_in_space (fromtimestamp (utcoffset env) mtime))
    as [body ->].
  rewrite endswith_after_space. cbn [negb]. split; [reflexivity|].
  exists body. now rewrite append_assoc.
Qed.

Lemma get_mp3_metadata_raise env name e :
  read_metadata env name = Raise e -> get_mp3_metadata env name = None.
Proof. unfold get_mp3_metadata. now intros ->. Qed.

(** X1: [get_mp3_metadata] returns [None] exactly when the tool cannot be
    run, its output does not parse, or the duration or the size does not
    convert.  A missing [format] object, missing tags and missing fields
    are no failures: the defaults apply. *)
Theorem get_mp3_metadata_none_iff (env : Env) (name : string) :
  get_mp3_metadata env name = None <->
  exists e,
    ffprobe env name = RunFails e \/ ffprobe env name = LoadsFails e \/
    exists f, ffprobe env name = Stdout (Some f) /\
      (fmt_duration f = Some (ConvRaises e) \/ fmt_size f = Some (ConvRaises e)).
Proof.
  unfold get_mp3_metadata, read_metadata.
  destruct (ffprobe env name) as [e|e|[f|]]; cbn.
  - split; [intros _; exists e; now left|reflexivity].
  - split; [intros _; exists e; right; now left|reflexivity].
  - destruct f as [tags [[e1|d]|] [[e2|z]|]]; cbn; split; try reflexivity;
      try discriminate;
      try (intros _; eexists; right; right; eexists; split; [reflexivity|];
           cbn; first [left; reflexivity | right; reflexivity]);
      intros [e [[=]|[[=]|[f [[= <-] [H|H]]]]]]; cbn in H; discriminate.
  - split; [discriminate|].
    intros [e [[=]|[[=]|[f [[=] _]]]]].
Qed.

Lemma rfind_dot_mp3 (base : string) :
  rfind_dot (base ++ ".mp3") = Some (String.length base).
Proof.
  induction base as [|c base IH]; [reflexivity|].
  simpl. now rewrite IH.
Qed.

Lemma substring_append (a b : string) :
  String.substring 0 (String.length a) (a ++ b) = a.
Proof.
  induction a as [|c a IH]; simpl.
  - now destruct b.
  - now rewrite IH.
Qed.

(** The stem of [base.mp3] is [base]; a file named just [.mp3] has no
    suffix and keeps its whole name. *)
Lemma stem_mp3 (base : string) :
  stem (base ++ ".mp3") = if String.eqb base "" then ".mp3" else base.
Proof.
  unfold stem. rewrite rfind_dot_mp3, length_append. cbn [String.length].
  destruct base as [|c base]; [reflexivity|].
  cbn [String.length String.eqb].
  replace (Nat.ltb 0 (S (String.length base))) with true by reflexivity.
  replace (Nat.ltb (S (String.length base)) (S (String.length base) + 4 - 1))
    with true by (symmetry; apply Nat.ltb_lt; lia).
  cbn [andb]. apply (substring_append (String c base)).
Qed.

(** X2: a file [base.mp3] whose tags hold no title is titled [base]; when
    its tags hold no comment either, the description is the generated
    default built on that title. *)
Theorem untagged_title_is_stem (env : Env) (base : string) (md : Metadata) :
  base <> "" ->
  get_mp3_metadata env (base ++ ".mp3") = Some md ->
  (forall f tags, ffprobe env (base ++ ".mp3") = Stdout (Some f) ->
                  fmt_tags f = Some tags -> tags !! "title" = None) ->
  md_title md = base.
Proof.
  intros Hbase Hmd Hnone.
  unfold get_mp3_metadata, read_metadata in Hmd.
  destruct (ffprobe env (base ++ ".mp3")) as [e|e|format] eqn:Hprobe;
    try discriminate.
  assert (Htitle :
    default (stem (base ++ ".mp3"))
      (default (∅ : gmap string string)
         (fmt_tags (default (mkFormatInfo None None None) format)) !! "title")
    = base).
  { rewrite stem_mp3.
    destruct (String.eqb_spec base "") as [->|_]; [congruence|].
    destruct format as [f|]; cbn; [|reflexivity].
    destruct (fmt_tags f) as [tags|] eqn:Htags; cbn; [|reflexivity].
    now rewrite (Hnone f tags eq_refl Htags). }
  cbv zeta in Hmd.
  destruct (conv (default (ConvValue 0)
                    (fmt_duration (default (mkFormatInfo None None None) format))));
    cbn in Hmd; [|discriminate].
  destruct (conv (default (ConvValue 0)
                    (fmt_size (default (mkFormatInfo None None None) format))));
    cbn in Hmd; [|discriminate].
  injection Hmd as <-. exact Htitle.
Qed.

Lemma untagged_title_is_stem_witness :
  exists md, get_mp3_metadata env_tagged ("roadmap" ++ ".mp3") = Some md
             /\ md_title md = "roadmap".
Proof.
  exists (mkMetadata "roadmap" "Jaxon Digital" "Project Pivot Strategy" "" 0 0).
  split; [reflexivity|].
  apply (untagged_title_is_stem env_tagged "roadmap" _);
    [discriminate|reflexivity|].
  intros f tags Hf Htags. vm_compute in Hf. injection Hf as <-. discriminate.
Defined.

(** The first loop, entry by entry. *)
Lemma collect_episodes_flat_map env urls files acc :
  collect_episodes env urls files acc
  = (acc ++ flat_map (episodes_of_entry env urls) files)%list.
Proof.
  revert acc. induction files as [|[name mtime] files IH]; intros acc.
  - cbn. now rewrite app_nil_r.
  - cbn [collect_episodes flat_map]. unfold episodes_of_entry at 1. cbn [fst snd].
    destruct (is_temp_or_chunk name); [apply IH|].
    destruct (get_mp3_metadata env name); [|apply IH].
    rewrite IH, <- app_assoc. reflexivity.
Qed.

Lemma episodes_of_Permutation env :
  Permutation (episodes_of env)
    (flat_map (episodes_of_entry env (load_drive_urls env)) (mp3_files env)).
Proof.
  unfold episodes_of. rewrite sort_episodes_Permutation.
  now rewrite collect_episodes_flat_map.
Qed.

Lemma In_episodes_of_entry env urls entry ep :
  In ep (episodes_of_entry env urls entry) ->
  is_temp_or_chunk (fst entry) = false
  /\ exists metadata,
       get_mp3_metadata env (fst entry) = Some metadata
       /\ ep = episode_of env urls (fst entry) (snd entry) metadata.
Proof.
  unfold episodes_of_entry.
  destruct (is_temp_or_chunk (fst entry)); [intros []|].
  destruct (get_mp3_metadata env (fst entry)) as [metadata|]; [|intros []].
  intros [<-|[]]. split; [reflexivity|]. now exists metadata.
Qed.

Lemma In_episodes_of env ep :
  In ep (episodes_of env) ->
  exists entry metadata,
    In entry (mp3_files env)
    /\ is_temp_or_chunk (fst entry) = false
    /\ get_mp3_metadata env (fst entry) = Some metadata
    /\ ep = episode_of env (load_drive_urls env) (fst entry) (snd entry) metadata.
Proof.
  intros Hin. apply (Permutation_in _ (episodes_of_Permutation env)) in Hin.
  apply in_flat_map in Hin as [entry [Hentry Hep]].
  apply In_episodes_of_entry in Hep as [Htemp [metadata [Hmd ->]]].
  now exists entry, metadata.
Qed.

Lemma map_filename_flat_map env urls files :
  map filename (flat_map (episodes_of_entry env urls) files)
  = List.filter (selected env) (map fst files).
Proof.
  induction files as [|[name mtime] files IH]; [reflexivity|].
  cbn [flat_map map List.filter fst]. rewrite map_app, IH.
  unfold episodes_of_entry, selected. cbn [fst snd].
  destruct (is_temp_or_chunk name); [reflexivity|].
  now destruct (get_mp3_metadata env name).
Qed.

Lemma Permutation_filter {A} (f : A -> bool) (l l' : list A) :
  Permutation l l' -> Permutation (List.filter f l) (List.filter f l').
Proof.
  induction 1 as [|x l l' _ IH|x y l|l l' l'' _ IH1 _ IH2]; cbn.
  - constructor.
  - destruct (f x); [now constructor|exact IH].
  - destruct (f x), (f y); try reflexivity. apply perm_swap.
  - now transitivity (List.filter f l').
Qed.

Lemma mp3_files_Permutation env :
  Permutation (mp3_files env)
    (List.filter (fun entry => endswith (fst entry) ".mp3") (audio_dir env)).
Proof. apply (sorted_Permutation fst). Qed.

(** X4: the files that appear in the feed are exactly the selected ones:
    the entries of the directory named [*.mp3], without the temp and chunk
    files and without the files the tool gives no metadata for.  Each gives
    one item. *)
Theorem episodes_are_the_selected_files (env : Env) :
  Permutation (map filename (episodes_of env))
    (List.filter (selected env)
       (map fst (List.filter (fun entry => endswith (fst entry) ".mp3")
                   (audio_dir env))))
  /\ length (feed_items (generate_rss env))
     = length (List.filter (selected env)
                 (map fst (List.filter (fun entry => endswith (fst entry) ".mp3")
                             (audio_dir env)))).
Proof.
  assert (H : Permutation (map filename (episodes_of env))
     (List.filter (selected env)
        (map fst (List.filter (fun entry => endswith (fst entry) ".mp3")
                    (audio_dir env))))).
  { rewrite (Permutation_map filename (episodes_of_Permutation env)).
    rewrite map_filename_flat_map.
    apply Permutation_filter, Permutation_map, mp3_files_Permutation. }
  split; [exact H|].
  rewrite feed_items_generate_rss, length_map.
  rewrite <- (length_map filename). now apply Permutation_length.
Qed.


(** X6: the items are in non-increasing order of their date strings, the
    items of one date string are in the order in which their files were
    enumerated, and the files are enumerated in the order of their names. *)
Theorem episodes_ordered_by_date_string (env : Env) :
  Sorted (fun a b => String.leb (pub_date b) (pub_date a) = true) (episodes_of env)
  /\ (forall k,
        List.filter (key_is pub_date k) (episodes_of env)
        = List.filter (key_is pub_date k)
            (flat_map (episodes_of_entry env (load_drive_urls env)) (mp3_files env)))
  /\ Sorted (fun a b => String.leb (fst a) (fst b) = true) (mp3_files env).
Proof.
  split; [apply (Sorted_sort_reverse pub_date)|]. split.
  - intros k. unfold episodes_of, sort_episodes.
    rewrite (filter_sort_reverse pub_date), collect_episodes_flat_map.
    reflexivity.
  - apply (Sorted_sorted fst).
Qed.

Lemma item_of_points_to (ep : Episode) : item_points_to (audio_url ep) (item_of ep).
Proof.
  unfold item_points_to, findall, item_of. cbn [children].
  rewrite !List.filter_app. split.
  - destruct (0 <? duration ep); reflexivity.
  - exists (str_int (size ep)). destruct (0 <? duration ep); reflexivity.
Qed.

(** X3: the [guid] and the enclosure of every item carry the URL resolved
    for its file; when there is no mapping file the mapping is empty, and
    every URL is the fallback built on the base path and the filename. *)
Theorem feed_urls (env : Env) :
  Forall2 (fun ep item =>
             audio_url ep = get_audio_url (filename ep) (load_drive_urls env)
             /\ item_points_to (audio_url ep) item)
          (episodes_of env) (feed_items (generate_rss env))
  /\ (drive_urls_file env = None ->
      Forall (fun ep => audio_url ep = GITHUB_BASE_URL ++ "/" ++ filename ep)
             (episodes_of env)).
Proof.
  assert (Hurl : forall ep, In ep (episodes_of env) ->
            audio_url ep = get_audio_url (filename ep) (load_drive_urls env)).
  { intros ep Hin.
    apply In_episodes_of in Hin as (entry & metadata & _ & _ & _ & ->).
    reflexivity. }
  split.
  - rewrite feed_items_generate_rss.
    induction (episodes_of env) as [|ep l IH]; [constructor|].
    cbn [map]. constructor.
    + split; [apply Hurl; now left|apply item_of_points_to].
    + apply IH. intros ep' Hin. apply Hurl. now right.
  - intros Hnone. apply List.Forall_forall. intros ep Hin.
    rewrite (Hurl ep Hin). unfold load_drive_urls. rewrite Hnone.
    unfold get_audio_url, get_audio_url_from. now rewrite lookup_empty.
Qed.

Lemma feed_urls_witness :
  Forall (fun ep => audio_url ep = GITHUB_BASE_URL ++ "/" ++ filename ep)
         (episodes_of env_two_dates).
Proof. apply (feed_urls env_two_dates). reflexivity. Defined.

End FeedExtras.

(** * Further properties of the sync agent *)

Section SyncExtras.
Import Py SyncAudioToDrive SyncSpec Examples.

(** X8: without a token file the run raises at once: no request is made,
    and the remote store and the mapping file stay as they are. *)
Theorem missing_token_aborts (w : World) :
  token_file w = None ->
  exists w',
    main w = (Raise (Exception "Google Drive token not found"), w')
    /\ requests w' = requests w /\ drive w' = drive w
    /\ drive_urls_file w' = drive_urls_file w.
Proof.
  destruct w as [tok exp dir urls drv ps srv req out]. cbn. intros ->.
  eexists. split; [reflexivity|]. repeat split.
Qed.

Lemma missing_token_aborts_witness :
  exists w',
    main world_no_token = (Raise (Exception "Google Drive token not found"), w')
    /\ requests w' = requests world_no_token /\ drive w' = drive world_no_token
    /\ drive_urls_file w' = drive_urls_file world_no_token.
Proof. apply (missing_token_aborts world_no_token). reflexivity. Defined.

(** X9: [get_drive_service] touches neither the remote store, nor the
    mapping file, nor the output, and makes at most one request.  It
    rewrites the token file only after a refresh that succeeded, which it
    attempts only for expired credentials with a refresh token; the new
    file holds the new access token and the old refresh token.  When it
    raises, the token file is as it was. *)
Theorem get_drive_service_refresh (w w' : World) (r : result unit) :
  get_drive_service w = (r, w') ->
  (drive w' = drive w /\ drive_urls_file w' = drive_urls_file w
   /\ stdout w' = stdout w /\ requests w' <= S (requests w))%nat
  /\ (token_file w' <> token_file w ->
      r = Ok tt /\ creds_expired w = true
      /\ exists t new,
           token_file w = Some t /\ truthy (refresh_token t) = true
           /\ server w (requests w) = Done new
           /\ token_file w' = Some (mkToken (Some new) (refresh_token t)))
  /\ (forall e, r = Raise e -> token_file w' = token_file w)
  /\ (creds_expired w = false -> requests w' = requests w).
Proof.
  destruct w as [tok exp dir urls drv ps srv req out].
  unfold get_drive_service, mbind, get, raise, ret, modify, execute. cbn.
  destruct tok as [t|]; cbn.
  2:{ intros [= <- <-]. cbn. repeat split; try lia; congruence. }
  destruct exp; cbn.
  2:{ intros [= <- <-]. cbn. repeat split; try lia; congruence. }
  destruct (truthy (refresh_token t)) eqn:Htruthy; cbn.
  2:{ intros [= <- <-]. cbn. repeat split; try lia; congruence. }
  destruct (srv req) as [e|new] eqn:Hsrv; cbn; intros [= <- <-]; cbn.
  - repeat split; try lia; congruence.
  - split; [repeat split; lia|]. split; [|split; [discriminate|discriminate]].
    intros _. split; [reflexivity|]. split; [reflexivity|].
    exists t, new. repeat split; assumption.
Qed.

Lemma get_drive_service_refresh_witness :
  token_file (snd (get_drive_service world_expired))
  = Some (mkToken (Some "N0") (Some "1//refresh")).
Proof.
  destruct (get_drive_service_refresh world_expired
              (snd (get_drive_service world_expired))
              (fst (get_drive_service world_expired)))
    as (_ & Hnew & _ & _); [apply surjective_pairing|].
  destruct Hnew as (_ & _ & t & new & Ht & _ & Hsrv & Htoken).
  - vm_compute. discriminate.
  - vm_compute in Ht, Hsrv. injection Ht as <-. injection Hsrv as <-.
    exact Htoken.
Defined.

Lemma list_pages_requests page more files w r w' :
  list_pages page more files w = (r, w') ->
  (requests w < requests w')%nat
  /\ forall e, r = Raise e ->
       exists n, (requests w <= n < requests w')%nat /\ server w n = Fails e.
Proof.
  revert page files w r w'.
  induction more as [|next more IH]; intros page files w r w';
    cbn [list_pages]; unfold mbind, execute;
    destruct w as [tok exp dir urls drv ps srv req out]; cbn -[record_page];
    destruct (srv req) as [e|s] eqn:Hsrv; cbn -[record_page].
  - intros [= <- <-]. cbn. split; [lia|]. intros e' [= <-]. exists req. split; [lia|assumption].
  - intros [= <- <-]. cbn. split; [lia|discriminate].
  - intros [= <- <-]. cbn. split; [lia|]. intros e' [= <-]. exists req. split; [lia|assumption].
  - intros H. apply IH in H as [Hlt Hfail]. cbn in Hlt, Hfail. split; [lia|].
    intros e He. destruct (Hfail e He) as [n [Hn Hs]]. exists n. split; [lia|exact Hs].
Qed.

(** X10: [list_drive_files] changes nothing but the count of requests, of
    which it makes at least one.  When it returns, the result is the
    listing of the folder, whatever the size of the pages; when it raises,
    one of its requests failed.  If every request is answered it returns. *)
Theorem list_drive_files_result (folder_id : string) (w : World) :
  (forall r w',
      list_drive_files folder_id w = (r, w') ->
      w' = set_requests (requests w') w /\ (requests w < requests w')%nat
      /\ match r with
         | Ok files => files = remote_listing folder_id (drive w)
         | Raise e =>
             exists n, (requests w <= n < requests w')%nat /\ server w n = Fails e
         end)
  /\ (always_answers w ->
      exists w', list_drive_files folder_id w
                 = (Ok (remote_listing folder_id (drive w)), w')).
Proof.
  split.
  - intros r w' H.
    destruct (list_drive_files_spec _ _ _ _ H) as [Hw HE]. split; [exact Hw|].
    assert (Hreq : (requests w < requests w')%nat
       /\ forall e, r = Raise e ->
            exists n, (requests w <= n < requests w')%nat /\ server w n = Fails e).
    { revert H. unfold list_drive_files, mbind, get. cbn -[list_pages paginate].
      destruct (paginate _ _); apply list_pages_requests. }
    destruct Hreq as [Hlt Hfail]. split; [exact Hlt|].
    destruct r as [files|e]; [now apply HE|now apply Hfail].
  - intros Hw. destruct (list_drive_files_answers folder_id w Hw) as [E [w' H]].
    exists w'. rewrite H. f_equal. f_equal.
    now apply (list_drive_files_spec _ _ _ _ H).
Qed.

Lemma list_drive_files_result_witness :
  exists w', list_drive_files MP3_FOLDER_ID world_sync
             = (Ok (remote_listing MP3_FOLDER_ID (drive world_sync)), w').
Proof.
  apply (list_drive_files_result MP3_FOLDER_ID world_sync).
  intros n. eexists. reflexivity.
Defined.

Lemma record_page_snoc l f files :
  record_page (l ++ [f]) files
  = <[file_name f := download_link (file_id f)]> (record_page l files).
Proof. now rewrite record_page_app. Qed.

Lemma record_page_lookup_None l name :
  record_page l ∅ !! name = None <-> forall f, In f l -> file_name f <> name.
Proof.
  induction l as [|f l IH] using rev_ind.
  - split; [intros _ f []|intros _; apply lookup_empty].
  - rewrite record_page_snoc. split.
    + intros H g Hin. apply lookup_insert_None in H as [H Hne].
      apply in_app_or in Hin as [Hin|[<-|[]]]; [|exact Hne].
      now apply IH.
    + intros H. apply lookup_insert_None. split.
      * apply IH. intros g Hin. apply H, in_or_app. now left.
      * apply H, in_or_app. right. now left.
Qed.

Lemma record_page_lookup_Some l name url :
  record_page l ∅ !! name = Some url ->
  exists f, In f l /\ file_name f = name /\ url = download_link (file_id f).
Proof.
  induction l as [|f l IH] using rev_ind.
  - unfold record_page. cbn [fold_left]. rewrite lookup_empty. discriminate.
  - rewrite record_page_snoc. intros H.
    destruct (decide (file_name f = name)) as [Heq|Hne].
    + rewrite Heq, lookup_insert_eq in H. injection H as <-.
      exists f. split; [apply in_or_app; right; now left|now split].
    + rewrite lookup_insert_ne in H by exact Hne.
      destruct (IH H) as [g [Hin Hg]]. exists g.
      split; [apply in_or_app; now left|exact Hg].
Qed.

Lemma record_page_lookup_last before f after :
  (forall g, In g after -> file_name g <> file_name f) ->
  record_page (before ++ f :: after) ∅ !! file_name f
  = Some (download_link (file_id f)).
Proof.
  induction after as [|g after IH] using rev_ind; intros Hafter.
  - change (before ++ [f])%list with (before ++ [f])%list.
    rewrite record_page_snoc. apply lookup_insert_eq.
  - change (f :: after ++ [g])%list with ((f :: after) ++ [g])%list.
    rewrite app_assoc, record_page_snoc, lookup_insert_ne.
    + apply IH. intros h Hin. apply Hafter, in_or_app. now left.
    + apply Hafter, in_or_app. right. now left.
Qed.

(** X11: a name is missing from the listing exactly when no file of the
    store that matches the query has it; a listed URL is the download link
    of such a file; and among several such files the last one decides. *)
Theorem remote_listing_lookup (folder_id : string) (remote : list DriveFile)
    (name : string) :
  (remote_listing folder_id remote !! name = None <->
   forall f, In f remote -> matches_query folder_id f = true ->
             file_name f <> name)
  /\ (forall url,
        remote_listing folder_id remote !! name = Some url ->
        exists f, In f remote /\ matches_query folder_id f = true
                  /\ file_name f = name /\ url = download_link (file_id f))
  /\ (forall before f after,
        remote = (before ++ f :: after)%list ->
        matches_query folder_id f = true -> file_name f = name ->
        (forall g, In g after -> matches_query folder_id g = true ->
                   file_name g <> name) ->
        remote_listing folder_id remote !! name
        = Some (download_link (file_id f))).
Proof.
  unfold remote_listing. split; [|split].
  - rewrite record_page_lookup_None. split.
    + intros H f Hin Hq. apply H, filter_In. now split.
    + intros H f Hin. apply filter_In in Hin as [Hin Hq]. now apply H.
  - intros url H. apply record_page_lookup_Some in H as [f [Hin [Hn Hu]]].
    apply filter_In in Hin as [Hin Hq]. now exists f.
  - intros before f after -> Hq <- Hafter.
    rewrite List.filter_app. cbn [List.filter]. rewrite Hq.
    apply record_page_lookup_last.
    intros g Hin. apply filter_In in Hin as [Hin Hg]. now apply Hafter.
Qed.

Lemma remote_listing_lookup_witness :
  remote_listing MP3_FOLDER_ID
    [ mkDriveFile "old" "a.mp3" [MP3_FOLDER_ID] "audio/mpeg" false true;
      mkDriveFile "new" "a.mp3" [MP3_FOLDER_ID] "audio/mpeg" false true;
      mkDriveFile "gone" "a.mp3" [MP3_FOLDER_ID] "audio/mpeg" true true ]
    !! "a.mp3"
  = Some (download_link "new").
Proof.
  refine (proj2 (proj2 (remote_listing_lookup MP3_FOLDER_ID _ "a.mp3"))
            [mkDriveFile "old" "a.mp3" [MP3_FOLDER_ID] "audio/mpeg" false true]
            (mkDriveFile "new" "a.mp3" [MP3_FOLDER_ID] "audio/mpeg" false true)
            [mkDriveFile "gone" "a.mp3" [MP3_FOLDER_ID] "audio/mpeg" true true]
            eq_refl eq_refl eq_refl _).
  intros g [<-|[]] Hq. discriminate Hq.
Defined.











(** X15: a run that saves leaves every entry whose key is not a local file
    of the run exactly as it was loaded, value included; an entry of a file
    since deleted stays for good. *)
Theorem other_entries_kept (w w' : World) :
  main w = (Ok tt, w') ->
  exists saved,
    drive_urls_file w' = Some saved
    /\ forall k, ~ In k (local_mp3s w) -> saved !! k = saved_mapping w !! k.
Proof.
  intros H. apply main_inv in H as [(e & [=] & _)|(_ & w1 & w2 & M & n & H)].
  destruct H as (_ & _ & Hsteps & _ & Hsaved & _).
  exists M. split; [exact Hsaved|].
  intros k Hk. apply (sync_steps_other _ _ _ _ _ _ k Hsteps Hk).
Qed.

Lemma other_entries_kept_witness :
  exists saved,
    drive_urls_file (snd (main world_sync)) = Some saved
    /\ saved !! "old.mp3"
       = Some "https://drive.google.com/uc?export=download&id=X0".
Proof.
  destruct (other_entries_kept world_sync (snd (main world_sync)))
    as [saved [Hsaved Hkept]]; [vm_compute; reflexivity|].
  exists saved. split; [exact Hsaved|].
  rewrite (Hkept "old.mp3"); [vm_compute; reflexivity|].
  intros Hin. vm_compute in Hin.
  repeat (destruct Hin as [Hin|Hin]; [discriminate Hin|]). exact Hin.
Defined.

(** A step uploads at most the file at hand, and only when the file is
    neither listed nor mapped. *)
Lemma sync_step_uploads E f st w st' w' :
  sync_step E f st w st' w' ->
  exists news,
    map file_name (drive w') = (map file_name (drive w) ++ news)%list
    /\ (news = [] \/ news = [f] /\ E !! f = None /\ fst st !! f = None).
Proof.
  destruct 1 as [? ? ? ? ? ? ? Hd|? ? ? ? ? ? ? Hd|? ? ? ? ? ? Hex Hmap ? ? ? Hd
                |? ? ? ? ? Hex Hmap [[_ Hd]|[id [_ [_ Hd]]]]]; rewrite Hd.
  - exists []. rewrite app_nil_r. split; [reflexivity|now left].
  - exists []. rewrite app_nil_r. split; [reflexivity|now left].
  - exists [f]. rewrite map_file_name_grant, map_app. split; [reflexivity|].
    right. now repeat split.
  - exists []. rewrite app_nil_r. split; [reflexivity|now left].
  - exists [f]. rewrite map_app. split; [reflexivity|]. right. now repeat split.
Qed.

Lemma sync_steps_uploads E l st w st' w' :
  sync_steps E l st w st' w' ->
  exists news,
    map file_name (drive w') = (map file_name (drive w) ++ news)%list
    /\ Forall (fun x => In x l /\ E !! x = None /\ fst st !! x = None) news
    /\ (List.NoDup l -> List.NoDup news).
Proof.
  induction 1 as [|f rest st w st1 w1 st2 w2 Hstep _ IH].
  - exists []. rewrite app_nil_r. split; [reflexivity|].
    split; constructor.
  - destruct (sync_step_uploads _ _ _ _ _ _ Hstep) as [n1 [E1 H1]].
    destruct IH as [n2 [E2 [H2 H3]]].
    assert (H2' : Forall (fun x => In x (f :: rest) /\ E !! x = None
                                    /\ fst st !! x = None) n2).
    { eapply List.Forall_impl; [|exact H2]. cbn beta. intros x (Hin & Hex & Hmap).
      split; [now right|]. split; [exact Hex|].
      apply sync_step_dom in Hstep.
      apply not_elem_of_dom. intros Hdom. apply Hstep in Hdom.
      apply elem_of_dom in Hdom as [u Hu]. congruence. }
    exists (n1 ++ n2)%list. split; [now rewrite E2, E1, app_assoc|].
    destruct H1 as [->|(-> & Hex & Hmap)]; cbn [app].
    + split; [exact H2'|]. intros Hnd. apply H3. now inversion Hnd.
    + split; [constructor; [|exact H2']; split; [now left|now split]|].
      intros Hnd. inversion Hnd as [|? ? Hnotin Hnd']; subst.
      constructor; [|now apply H3].
      intros Hin. apply Hnotin.
      now apply (proj1 (List.Forall_forall _ _) H2) in Hin as [Hin _].
Qed.

Lemma NoDup_local_mp3s w : List.NoDup (audio_dir w) -> List.NoDup (local_mp3s w).
Proof. intros H. unfold local_mp3s. now do 2 apply List.NoDup_filter. Qed.

(** X16: the files a run adds to the remote store are local files that
    were neither in the listing nor in the loaded mapping; a file that is
    listed or mapped is never uploaded.  When the names of the directory
    are distinct, no name is uploaded twice in one run. *)
Theorem uploads_only_unknown_files (w w' : World) (r : result unit) :
  main w = (r, w') ->
  exists news,
    map file_name (drive w') = (map file_name (drive w) ++ news)%list
    /\ Forall (fun x => In x (local_mp3s w)
                        /\ remote_listing MP3_FOLDER_ID (drive w) !! x = None
                        /\ saved_mapping w !! x = None) news
    /\ (List.NoDup (audio_dir w) -> List.NoDup news).
Proof.
  intros H. apply main_inv in H as [(e & _ & Hd & _)|(_ & w1 & w2 & M & n & H)].
  - exists []. rewrite Hd, app_nil_r. split; [reflexivity|]. split; constructor.
  - destruct H as (Hd1 & _ & Hsteps & Hd2 & _).
    apply sync_steps_uploads in Hsteps as [news [Hn [Hall Hnd]]].
    exists news. rewrite Hd2, Hn, Hd1. split; [reflexivity|].
    split; [exact Hall|]. intros H. now apply Hnd, NoDup_local_mp3s.
Qed.

Lemma uploads_only_unknown_files_witness :
  exists news,
    map file_name (drive (snd (main world_sync)))
    = (map file_name (drive world_sync) ++ news)%list
    /\ List.NoDup news.
Proof.
  destruct (uploads_only_unknown_files world_sync (snd (main world_sync))
              (fst (main world_sync))) as [news (Hn & _ & Hnd)];
    [apply surjective_pairing|].
  exists news. split; [exact Hn|]. apply Hnd.
  repeat (constructor; [intros Hin; vm_compute in Hin;
                        repeat (destruct Hin as [Hin|Hin]; [discriminate Hin|]);
                        exact Hin|]).
  constructor.
Defined.

Lemma kept_refl f : kept f f.
Proof. split; [reflexivity|tauto]. Qed.

Lemma kept_trans f g h : kept f g -> kept g h -> kept f h.
Proof. unfold kept. intros [C1 P1] [C2 P2]. split; [congruence|tauto]. Qed.

Lemma kept_grant id f : kept f (grant_anyone_reader id f).
Proof.
  unfold kept, core, grant_anyone_reader.
  destruct (String.eqb (file_id f) id); cbn; split; auto.
Qed.

Lemma Forall2_kept_refl l : Forall2 kept l l.
Proof. induction l; constructor; [apply kept_refl|assumption]. Qed.

Lemma Forall2_kept_grant id l : Forall2 kept l (map (grant_anyone_reader id) l).
Proof. induction l; cbn; constructor; [apply kept_grant|assumption]. Qed.

Lemma Forall2_kept_trans l1 l2 l3 :
  Forall2 kept l1 l2 -> Forall2 kept l2 l3 -> Forall2 kept l1 l3.
Proof.
  intros H. revert l3. induction H as [|f g l1 l2 Hfg _ IH]; intros l3 H3.
  - inversion H3. constructor.
  - inversion H3 as [|? h ? l3' Hgh H3']; subst. constructor.
    + eapply kept_trans; eassumption.
    + now apply IH.
Qed.

Lemma extends_refl remote : extends remote remote.
Proof.
  exists remote, []. split; [now rewrite app_nil_r|apply Forall2_kept_refl].
Qed.

Lemma extends_trans r1 r2 r3 : extends r1 r2 -> extends r2 r3 -> extends r1 r3.
Proof.
  intros (o1 & n1 & -> & H1) (o2 & n2 & -> & H2).
  apply List.Forall2_app_inv_l in H2 as (o2a & o2b & Ha & Hb & ->).
  exists o2a, (o2b ++ n2)%list. split; [now rewrite app_assoc|].
  eapply Forall2_kept_trans; eassumption.
Qed.

Lemma sync_step_extends E f st w st' w' :
  sync_step E f st w st' w' -> extends (drive w) (drive w').
Proof.
  destruct 1 as [? ? ? ? ? ? ? Hd|? ? ? ? ? ? ? Hd|? ? ? ? id ? ? ? ? ? ? Hd
                |? ? ? ? ? ? ? [[_ Hd]|[id [_ [_ Hd]]]]]; rewrite Hd.
  - apply extends_refl.
  - apply extends_refl.
  - rewrite map_app.
    eexists _, _. split; [reflexivity|apply Forall2_kept_grant].
  - apply extends_refl.
  - eexists _, _. split; [reflexivity|apply Forall2_kept_refl].
Qed.

Lemma sync_steps_extends E l st w st' w' :
  sync_steps E l st w st' w' -> extends (drive w) (drive w').
Proof.
  induction 1 as [|f rest st w st1 w1 st2 w2 Hstep _ IH]; [apply extends_refl|].
  eapply extends_trans; [eapply sync_step_extends; eassumption|exact IH].
Qed.

(** X17: whatever a run does, every file of the remote store is still
    there afterwards, in place, with its id, name, folder, type and trash
    flag; a file that was public stays public.  New files come after the
    old ones.  A run deletes, renames, moves and unshares nothing. *)
Theorem run_keeps_drive_files (w w' : World) (r : result unit) :
  main w = (r, w') -> extends (drive w) (drive w').
Proof.
  intros H. apply main_inv in H as [(e & _ & Hd & _)|(_ & w1 & w2 & M & n & H)].
  - rewrite Hd. apply extends_refl.
  - destruct H as (Hd1 & _ & Hsteps & Hd2 & _).
    rewrite Hd2, <- Hd1. eapply sync_steps_extends, Hsteps.
Qed.

Lemma run_keeps_drive_files_witness :
  extends (drive world_sync) (drive (snd (main world_sync))).
Proof.
  apply (run_keeps_drive_files world_sync (snd (main world_sync))
           (fst (main world_sync))).
  apply surjective_pairing.
Defined.

(** The count kept by the loop against the files created. *)
Lemma sync_steps_count E l st w st' w' :
  sync_steps E l st w st' w' ->
  (snd st <= snd st'
   /\ length (drive w) + (snd st' - snd st) <= length (drive w')
   /\ length (drive w') <= length (drive w) + length l
   /\ (no_error (stdout w') ->
       length (drive w') = length (drive w) + (snd st' - snd st)))%nat.
Proof.
  induction 1 as [|f rest st w st1 w1 st2 w2 Hstep Hsteps IH].
  - cbn. repeat split; lia.
  - destruct IH as (I1 & I2 & I3 & I4).
    destruct (sync_steps_stdout _ _ _ _ _ _ Hsteps) as [out Hout].
    assert (Hs : (snd st <= snd st1
              /\ length (drive w) + (snd st1 - snd st) <= length (drive w1)
              /\ length (drive w1) <= S (length (drive w))
              /\ (no_error (stdout w1) ->
                  length (drive w1) = length (drive w) + (snd st1 - snd st)))%nat).
    { destruct Hstep as [? ? ? ? ? ? ? Hd|? ? ? ? ? ? ? Hd|? ? ? ? ? ? ? ? ? ? ? Hd
                        |? ? ? ? e ? ? [[_ Hd]|[id [_ [_ Hd]]]] ? Hprint];
        rewrite Hd; cbn [snd]; rewrite ?length_map, ?length_app; cbn [length];
        repeat split; try lia.
      intros Hq. exfalso. apply (Hq e). rewrite Hprint.
      apply in_or_app. right. right. now left. }
    destruct Hs as (S1 & S2 & S3 & S4). cbn [length].
    split; [lia|]. split; [lia|]. split; [lia|].
    intros Hq. specialize (I4 Hq).
    rewrite Hout in Hq. apply no_error_prefix in Hq. specialize (S4 Hq). lia.
Qed.

(** X18: a run that saves ends its output with the count of uploads and the
    size of the saved mapping.  The count never exceeds the number of files
    the run created, which never exceeds the number of local files; when
    the run printed no error the count is the number of files created. *)
Theorem uploaded_count_accounting (w w' : World) :
  main w = (Ok tt, w') ->
  exists n saved out,
    stdout w' = (out ++ [Summary n (size saved)])%list
    /\ drive_urls_file w' = Some saved
    /\ (length (drive w) + n <= length (drive w')
        /\ length (drive w') <= length (drive w) + length (local_mp3s w))%nat
    /\ (no_error (stdout w') -> length (drive w') = (length (drive w) + n)%nat).
Proof.
  intros H. apply main_inv in H as [(e & [=] & _)|(_ & w1 & w2 & M & n & H)].
  destruct H as (Hd1 & _ & Hsteps & Hd2 & Hsaved & _ & _ & _ & _ & Hout).
  apply sync_steps_count in Hsteps as (_ & C2 & C3 & C4). cbn [snd] in *.
  rewrite Nat.sub_0_r in *. rewrite Hd1 in *.
  exists n, M, (stdout w2). split; [exact Hout|]. split; [exact Hsaved|].
  rewrite Hd2. split; [split; assumption|].
  intros Hq. apply C4. rewrite Hout in Hq. now apply no_error_prefix in Hq.
Qed.

Lemma uploaded_count_accounting_witness :
  exists n saved out,
    stdout (snd (main world_sync)) = (out ++ [Summary n (size saved)])%list
    /\ drive_urls_file (snd (main world_sync)) = Some saved
    /\ (length (drive world_sync) + n <= length (drive (snd (main world_sync))))%nat.
Proof.
  destruct (uploaded_count_accounting world_sync (snd (main world_sync)))
    as (n & saved & out & Hout & Hsaved & [Hle _] & _); [vm_compute; reflexivity|].
  exists n, saved, out. repeat split; assumption.
Defined.

Lemma In_local_mp3s w name :
  In name (local_mp3s w) <->
  In name (audio_dir w) /\ endswith name ".mp3" = true
  /\ GenerateFeed.is_temp_or_chunk name = false.
Proof.
  unfold local_mp3s, GenerateFeed.is_temp_or_chunk.
  rewrite !filter_In, andb_true_iff, !negb_true_iff, orb_false_iff. tauto.
Qed.

Lemma filter_map_fst {B} (f : string -> bool) (l : list (string * B)) :
  List.filter f (map fst l) = map fst (List.filter (fun e => f (fst e)) l).
Proof.
  induction l as [|e l IH]; [reflexivity|].
  cbn. destruct (f (fst e)); cbn; now rewrite IH.
Qed.

(** X19: the two scripts work on the same files: on one directory, the
    files the feed generator probes are, up to order, the files the sync
    agent goes through. *)
Theorem scripts_select_same_files (env : GenerateFeed.Env) (w : World) :
  map fst (GenerateFeed.audio_dir env) = audio_dir w ->
  Permutation
    (List.filter (fun name => negb (GenerateFeed.is_temp_or_chunk name))
       (map fst (GenerateFeed.mp3_files env)))
    (local_mp3s w).
Proof.
  intros Hdir. unfold local_mp3s. rewrite <- Hdir.
  rewrite (filter_map_fst (fun name => endswith name ".mp3")).
  rewrite (List.filter_ext
             (fun name => negb (str_contains ".temp." name)
                          && negb (str_contains ".chunk" name))
             (fun name => negb (GenerateFeed.is_temp_or_chunk name))).
  - apply Permutation_filter, Permutation_map, mp3_files_Permutation.
  - intros name. unfold GenerateFeed.is_temp_or_chunk.
    now rewrite negb_orb.
Qed.

Lemma scripts_select_same_files_witness :
  Permutation
    (List.filter (fun name => negb (GenerateFeed.is_temp_or_chunk name))
       (map fst (GenerateFeed.mp3_files env_after_sync)))
    (local_mp3s world_sync).
Proof. apply (scripts_select_same_files env_after_sync world_sync). reflexivity. Defined.

(** X20: after a run of the sync agent that saved and printed no error,
    the feed generated from the same directory and the saved mapping takes
    the URL of every episode from the mapping; the fallback URL is not
    used. *)
Theorem quiet_sync_feeds_mapped_urls (w w' : World) (env : GenerateFeed.Env) :
  main w = (Ok tt, w') ->
  no_error (stdout w') ->
  map fst (GenerateFeed.audio_dir env) = audio_dir w ->
  GenerateFeed.drive_urls_file env = drive_urls_file w' ->
  exists saved,
    drive_urls_file w' = Some saved
    /\ Forall (fun ep => saved !! GenerateFeed.filename ep
                         = Some (GenerateFeed.audio_url ep))
              (GenerateFeed.episodes_of env).
Proof.
  intros Hrun Hquiet Hdir Hfile.
  apply main_inv in Hrun as [(e & [=] & _)|(_ & w1 & w2 & M & n & H)].
  destruct H as (_ & _ & Hsteps & _ & Hsaved & _ & _ & _ & _ & Hout).
  assert (Hq2 : no_error (stdout w2)).
  { rewrite Hout in Hquiet. now apply no_error_prefix in Hquiet. }
  destruct (sync_steps_quiet _ _ _ _ _ _ Hsteps Hq2) as (Hmapped & _ & _).
  cbn [fst] in Hmapped.
  exists M. split; [exact Hsaved|].
  apply List.Forall_forall. intros ep Hin.
  apply In_episodes_of in Hin as (entry & metadata & Hentry & Htemp & _ & ->).
  cbn [GenerateFeed.filename GenerateFeed.audio_url FeedSpec.episode_of].
  assert (Hlocal : In (fst entry) (local_mp3s w)).
  { apply In_local_mp3s.
    apply (Permutation_in _ (mp3_files_Permutation env)) in Hentry.
    apply filter_In in Hentry as [Hentry Hends].
    split; [rewrite <- Hdir; now apply in_map|]. now split. }
  destruct (Hmapped _ Hlocal) as [url Hurl].
  unfold GenerateFeed.get_audio_url, GenerateFeed.get_audio_url_from,
    GenerateFeed.load_drive_urls.
  rewrite Hfile, Hsaved, Hurl. reflexivity.
Qed.

Lemma quiet_sync_feeds_mapped_urls_witness :
  exists saved,
    drive_urls_file (snd (main world_sync)) = Some saved
    /\ Forall (fun ep => saved !! GenerateFeed.filename ep
                         = Some (GenerateFeed.audio_url ep))
              (GenerateFeed.episodes_of env_after_sync).
Proof.
  apply (quiet_sync_feeds_mapped_urls world_sync (snd (main world_sync))
           env_after_sync).
  - vm_compute. reflexivity.
  - intros e Hin. vm_compute in Hin.
    repeat (destruct Hin as [Hin|Hin]; [discriminate Hin|]). exact Hin.
  - reflexivity.
  - reflexivity.
Defined.

Lemma sync_steps_listed E l st w st' w' f u :
  sync_steps E l st w st' w' ->
  In f l -> E !! f = Some u -> fst st' !! f = Some u.
Proof.
  induction 1 as [|g rest st w st1 w1 st2 w2 Hstep Hsteps IH]; [intros []|].
  intros [->|Hin] Hex; [|now apply IH].
  eapply sync_steps_remote_stable; [exact Hsteps|exact Hex|].
  destruct Hstep; cbn [fst]; try congruence.
  rewrite lookup_insert_eq. congruence.
Qed.

Lemma sync_steps_cached E l st w st' w' f u :
  sync_steps E l st w st' w' ->
  E !! f = None -> fst st !! f = Some u -> fst st' !! f = Some u.
Proof.
  induction 1 as [|g rest st w st1 w1 st2 w2 Hstep _ IH]; [tauto|].
  intros Hex Hst. apply IH; [exact Hex|].
  destruct (decide (f = g)) as [->|Hne].
  - destruct Hstep; cbn [fst] in *; congruence.
  - now rewrite (sync_step_other _ _ _ _ _ _ f Hstep Hne).
Qed.

Lemma extends_public remote remote' f :
  extends remote remote' -> In f remote -> file_anyone_reader f = true ->
  In f remote'.
Proof.
  intros (olds & news & -> & Hkept) Hin Hpub.
  apply in_or_app. left.
  induction Hkept as [|g g' l l' [Hcore Hp] _ IH]; [destruct Hin|].
  destruct Hin as [->|Hin]; [left|right; now apply IH].
  specialize (Hp Hpub). unfold core in Hcore.
  destruct f, g'. cbn in *. congruence.
Qed.

(** What a loop leaves for a file that was neither listed nor mapped. *)
Lemma sync_steps_uploaded E l st w st' w' f :
  sync_steps E l st w st' w' ->
  E !! f = None ->
  (fst st !! f = None
   \/ exists id, fst st !! f = Some (download_link id)
                 /\ In (mkDriveFile id f [MP3_FOLDER_ID] (guess_type f) false true)
                       (drive w)) ->
  fst st' !! f = None
  \/ exists id, fst st' !! f = Some (download_link id)
                /\ In (mkDriveFile id f [MP3_FOLDER_ID] (guess_type f) false true)
                      (drive w').
Proof.
  induction 1 as [|g rest st w st1 w1 st2 w2 Hstep _ IH]; [tauto|].
  intros Hex Hst. apply IH; [exact Hex|].
  pose proof (sync_step_extends _ _ _ _ _ _ Hstep) as Hext.
  destruct Hst as [Hnone|[id [Hsome Hin]]].
  - destruct (decide (f = g)) as [->|Hne].
    + destruct Hstep as [| |M k wa wb id ok ? ? ? ? ? Hd|]; cbn [fst] in *;
        try congruence; try (now left).
      right. exists id. split; [apply lookup_insert_eq|].
      rewrite Hd. apply in_map_iff. exists (new_file id g). split.
      * unfold grant_anyone_reader, new_file. cbn. now rewrite String.eqb_refl.
      * apply in_or_app. right. now left.
    + left. now rewrite (sync_step_other _ _ _ _ _ _ f Hstep Hne).
  - right. exists id. split.
    + pose proof (Steps_cons _ _ _ _ _ _ _ _ _ Hstep (Steps_nil _ _ _)) as H1.
      now apply (sync_steps_cached _ _ _ _ _ _ f _ H1 Hex).
    + now apply (extends_public _ _ _ Hext Hin).
Qed.

(** X21: the mapping a run saves holds, for every local file of the run:
    the listed URL if the file was listed, over any loaded value; else the
    loaded value if there was one; else either nothing, or the download
    link of a file of that name that is now in the folder with public read
    permission. *)
Theorem saved_mapping_after_run (w w' : World) :
  main w = (Ok tt, w') ->
  exists saved,
    drive_urls_file w' = Some saved
    /\ forall f, In f (local_mp3s w) ->
         match remote_listing MP3_FOLDER_ID (drive w) !! f, saved_mapping w !! f with
         | Some url, _ => saved !! f = Some url
         | None, Some url => saved !! f = Some url
         | None, None =>
             saved !! f = None
             \/ exists id,
                  saved !! f = Some (download_link id)
                  /\ In (mkDriveFile id f [MP3_FOLDER_ID] (guess_type f) false true)
                        (drive w')
         end.
Proof.
  intros H. apply main_inv in H as [(e & [=] & _)|(_ & w1 & w2 & M & n & H)].
  destruct H as (_ & _ & Hsteps & Hd2 & Hsaved & _).
  exists M. split; [exact Hsaved|]. intros f Hin.
  destruct (remote_listing MP3_FOLDER_ID (drive w) !! f) as [url|] eqn:Hex.
  - apply (sync_steps_listed _ _ _ _ _ _ f url Hsteps Hin Hex).
  - destruct (saved_mapping w !! f) as [url|] eqn:Hmap.
    + apply (sync_steps_cached _ _ _ _ _ _ f url Hsteps Hex Hmap).
    + rewrite Hd2.
      apply (sync_steps_uploaded _ _ _ _ _ _ f Hsteps Hex). now left.
Qed.

Lemma saved_mapping_after_run_witness :
  exists saved,
    drive_urls_file (snd (main world_sync)) = Some saved
    /\ saved !! "b.mp3" = Some (download_link "X1").
Proof.
  destruct (saved_mapping_after_run world_sync (snd (main world_sync)))
    as [saved [Hsaved Hall]]; [vm_compute; reflexivity|].
  exists saved. split; [exact Hsaved|].
  specialize (Hall "b.mp3").
  change (remote_listing MP3_FOLDER_ID (drive world_sync) !! "b.mp3")
    with (Some (download_link "X1")) in Hall.
  apply Hall. vm_compute. right. now left.
Defined.

End SyncExtras.
